(** * Forca na Rede: the game-state core of [App.js]

    A shallow embedding of the hangman game of [src/JogoDaForca/App.js]:
    the word list, the four pieces of component state, the two event
    handlers ([startNewGame], [handleGuess]), the status effect, and the
    derived views ([displayWord], [correctLetters], [wrongLetters]),
    followed by the properties of the game they implement.  The
    repository's second copy of the component has the same state logic;
    it differs in the drawing and in the wording of the alert. *)

From Stdlib Require Import List NArith ZArith QArith Bool Lia SpecFloat.
From Stdlib Require Import String Ascii Permutation.
Import ListNotations.

Set Implicit Arguments.

(* ================================================================== *)
(** ** JavaScript strings and arrays *)

(** A JavaScript string is a sequence of UTF-16 code units.  Every
    character of the program's word list lies in the Basic Multilingual
    Plane, so one character is one code unit. *)
Module JS.

Definition char := N.
Definition str := list char.

(** An ASCII literal of the source, as code units. *)
Definition lit (s : string) : str :=
  List.map N_of_ascii (list_ascii_of_string s).

Definition char_eqb : char -> char -> bool := N.eqb.

(** [a === b] on strings. *)
Fixpoint str_eqb (a b : str) : bool :=
  match a, b with
  | [], [] => true
  | x :: a', y :: b' => char_eqb x y && str_eqb a' b'
  | _, _ => false
  end.

(** [w.startsWith(p)]. *)
Fixpoint startsWith (w p : str) : bool :=
  match p, w with
  | [], _ => true
  | _ :: _, [] => false
  | y :: p', x :: w' => char_eqb x y && startsWith w' p'
  end.

(** [w.includes(p)] of [String.prototype]: [p] occurs in [w] as a
    contiguous run of code units. *)
Fixpoint String_includes (w p : str) : bool :=
  startsWith w p ||
  match w with
  | [] => false
  | _ :: w' => String_includes w' p
  end.

(** [a.includes(x)] of [Array.prototype], on an array of strings. *)
Definition Array_includes (a : list str) (x : str) : bool :=
  existsb (str_eqb x) a.

(** [w.split('')]: one single-unit string per code unit. *)
Definition split_chars (w : str) : list str :=
  List.map (fun c => [c]) w.

(** [[...new Set(a)]]: the elements of [a] in order of first
    occurrence, each once. *)
Fixpoint uniq_from (seen a : list str) : list str :=
  match a with
  | [] => []
  | x :: a' =>
      if Array_includes seen x then uniq_from seen a'
      else x :: uniq_from (seen ++ [x]) a'
  end.

Definition spread_Set (a : list str) : list str := uniq_from [] a.

(** [a.join(sep)]. *)
Fixpoint join (sep : str) (a : list str) : str :=
  match a with
  | [] => []
  | [x] => x
  | x :: a' => x ++ sep ++ join sep a'
  end.

End JS.

Import JS.

(* ================================================================== *)
(** ** Constants *)

(** The code unit of U+00C9, LATIN CAPITAL LETTER E WITH ACUTE. *)
Definition E_acute : char := 201%N.

(** [const WORDS = [...]] *)
Definition WORDS : list str :=
  [ lit "ZAGUEIRO"; lit "GOLEIRO"; lit "ATAQUE"; lit "LATERAL"; lit "CHUTEIRA";
    lit "TRAVE"; lit "GOL"; lit "PENALTI"; lit "ESCANTEIO"; lit "JUIZ";
    lit "CAMISA"; lit "ARQUIBANCADA"; lit "GRAMADO"; lit "BANDERA"; lit "FALTA";
    lit "ESCUDO"; lit "CAPITAO"; lit "CONVOCACAO"; lit "COPINHA"; lit "MARACANA";
    lit "HEXACAMPEAO"; lit "TORCEDOR"; lit "VITORIA"; lit "EMPATE"; lit "DERROTA";
    lit "CARRINHO"; lit "PASSES"; lit "TITE"; lit "PEL" ++ [E_acute]; lit "NEYMAR" ].

(** [const MAX_ATTEMPTS = 6;] *)
Definition MAX_ATTEMPTS : N := 6.

(** [const ALPHABET = 'ABCDEFGHIJKLMNOPQRSTUVWXYZ'.split('');] of the
    on-screen keyboard, whose keys are the only callers of
    [handleGuess]. *)
Definition ALPHABET : list str :=
  split_chars (lit "ABCDEFGHIJKLMNOPQRSTUVWXYZ").

(* ================================================================== *)
(** ** Component state *)

(** The three values [gameStatus] takes: ['playing'], ['won'], ['lost']. *)
Inductive Status := Playing | Won | Lost.

Definition Status_eqb (a b : Status) : bool :=
  match a, b with
  | Playing, Playing | Won, Won | Lost, Lost => true
  | _, _ => false
  end.

(** The four [useState] cells of [App].  [attempts] is a JavaScript
    number that only ever holds small natural numbers. *)
Record State := mkState {
  word : str;
  guessedLetters : list str;
  attempts : N;
  gameStatus : Status
}.

(** [useState('')], [useState([])], [useState(0)], [useState('playing')]. *)
Definition initialState : State := mkState [] [] 0 Playing.

(** An [Alert.alert(title, message)] call. *)
Record Alert := mkAlert { alertTitle : str; alertMessage : str }.

(** What a handler or effect body does: calls of the state setters (with
    a value or with an updater function) and of [Alert.alert]. *)
Inductive Action :=
| setWord (w : str)
| setGuessedLetters (f : list str -> list str)
| setAttempts (f : N -> N)
| setGameStatus (g : Status)
| alert (a : Alert).

Definition is_set (a : Action) : bool :=
  match a with alert _ => false | _ => true end.

Definition apply_action (s : State) (a : Action) : State :=
  match a with
  | setWord w => mkState w (guessedLetters s) (attempts s) (gameStatus s)
  | setGuessedLetters f => mkState (word s) (f (guessedLetters s)) (attempts s) (gameStatus s)
  | setAttempts f => mkState (word s) (guessedLetters s) (f (attempts s)) (gameStatus s)
  | setGameStatus g => mkState (word s) (guessedLetters s) (attempts s) g
  | alert _ => s
  end.

Definition apply_actions (acts : list Action) (s : State) : State :=
  fold_left apply_action acts s.

Fixpoint alerts_of (acts : list Action) : list Alert :=
  match acts with
  | [] => []
  | alert a :: acts' => a :: alerts_of acts'
  | _ :: acts' => alerts_of acts'
  end.

(* ================================================================== *)
(** ** JavaScript numbers *)

(** A JavaScript number is an IEEE-754 binary64 value: a [spec_float]
    of the standard library's specification of floating-point
    arithmetic, at precision 53 and maximal exponent 1024. *)
Definition double : Type := spec_float.

(** [x * y]: the exact product rounded to the nearest double, ties to
    even. *)
Definition double_mul : double -> double -> double := SFmul 53 1024.

(** The length of an array as a number. *)
Definition double_of_nat (n : nat) : double :=
  binary_normalize 53 1024 (Z.of_nat n) 0 false.

(** [Math.floor(x)], as the integer it denotes; [None] when [x] is NaN
    or infinite.  Minus zero denotes 0. *)
Definition Math_floor (x : double) : option Z :=
  match x with
  | S754_zero _ => Some 0%Z
  | S754_finite s m e => Some (Z.shiftl (cond_Zopp s (Zpos m)) e)
  | _ => None
  end.

(** What [Math.random()] may return: a double [r] with [0 <= r < 1]. *)
Definition Math_random_returns (r : double) : bool :=
  valid_binary 53 1024 r
  && SFleb (S754_zero false) r
  && SFltb r (S754_finite false 4503599627370496 (-52)).

(** The rational number a finite double denotes. *)
Definition double_value (x : double) : Q :=
  match x with
  | S754_finite s m (Zneg k) => cond_Zopp s (Zpos m) # (2 ^ k)
  | S754_finite s m e => inject_Z (cond_Zopp s (Zpos m) * 2 ^ e)
  | _ => 0
  end.

(** [a[i]] for a number [i] that [Math.floor] produced; the empty string
    stands for [undefined], the value outside the array. *)
Definition Array_get (a : list str) (i : option Z) : str :=
  match i with
  | Some z => if (z <? 0)%Z then [] else nth (Z.to_nat z) a []
  | None => []
  end.

(** The doubles nearest to 6/30 and to 28/30. *)
Definition double_6_30 : double := S754_finite false 7205759403792794 (-55).
Definition double_28_30 : double := S754_finite false 8406719304424926 (-53).

(* ================================================================== *)
(** ** Handlers and the status effect *)

(** [Math.floor(Math.random() * WORDS.length)], for the number [r] that
    [Math.random()] returned: the product is the rounded product of two
    doubles. *)
Definition randomIndex (r : double) : option Z :=
  Math_floor (double_mul r (double_of_nat (List.length WORDS))).

(** [startNewGame], given the value [r] of [Math.random()].  For the
    values [Math.random()] can return the index is one of the array
    ([randomIndex_spec]). *)
Definition startNewGame (r : double) : list Action :=
  let randomWord := Array_get WORDS (randomIndex r) in
  [ setWord randomWord;
    setGuessedLetters (fun _ => []);
    setAttempts (fun _ => 0%N);
    setGameStatus Playing ].

(** [uniqueLetters.every(letter => guessedLetters.includes(letter))] with
    [uniqueLetters = [...new Set(word.split(''))]]. *)
Definition hasWon (s : State) : bool :=
  let uniqueLetters := spread_Set (split_chars (word s)) in
  forallb (fun letter => Array_includes (guessedLetters s) letter) uniqueLetters.

Definition redCardTitle : str :=
  [10060%N] ++ lit " CART" ++ [195%N] ++ lit "O VERMELHO!".

Definition redCardMessage (w : str) : str :=
  lit "Faltas demais! A palavra era: " ++ w.

(** The body of the status [useEffect]. *)
Definition statusEffect (s : State) : list Action :=
  if match word s with [] => true | _ => false end
     || negb (Status_eqb (gameStatus s) Playing)
  then []
  else if hasWon s then [ setGameStatus Won ]
  else if (MAX_ATTEMPTS <=? attempts s)%N
  then [ setGameStatus Lost; alert (mkAlert redCardTitle (redCardMessage (word s))) ]
  else [].

(** [handleGuess(letter)], reading the state of the current render. *)
Definition handleGuess (letter : str) (s : State) : list Action :=
  if negb (Status_eqb (gameStatus s) Playing)
     || Array_includes (guessedLetters s) letter
  then []
  else
    setGuessedLetters (fun prev => prev ++ [letter]) ::
    (if negb (String_includes (word s) letter)
     then [ setAttempts (fun prev => (prev + 1)%N) ]
     else []).

(* ================================================================== *)
(** ** The render cycle *)

(** After a commit the status effect runs on the new state; when it sets
    state the component renders again and the effect runs once more.
    [fuel] bounds the number of passes. *)
Fixpoint runEffects (fuel : nat) (s : State) : State * list Alert :=
  match fuel with
  | O => (s, [])
  | S fuel' =>
      let acts := statusEffect s in
      if existsb is_set acts
      then let '(s', al) := runEffects fuel' (apply_actions acts s) in
           (s', alerts_of acts ++ al)
      else (s, alerts_of acts)
  end.

(** Two passes reach the fixed point (see [runEffects_fuel]): the first
    may set [gameStatus], the second then returns at its guard. *)
Definition renderPasses : nat := 2.

(** One event: the handler's actions are applied in order; if no setter
    was called nothing renders and no effect runs. *)
Definition dispatch (acts : list Action) (s : State) : State * list Alert :=
  if existsb is_set acts
  then let '(s', al) := runEffects renderPasses (apply_actions acts s) in
       (s', alerts_of acts ++ al)
  else (s, alerts_of acts).

(** A key press of the on-screen keyboard. *)
Definition submitGuess (letter : str) (s : State) : State * list Alert :=
  dispatch (handleGuess letter s) s.

(** A press of the restart button (or the mount effect). *)
Definition startNewRound (r : double) (s : State) : State * list Alert :=
  dispatch (startNewGame r) s.

(** A sequence of key presses, with the alerts shown along the way. *)
Fixpoint play (letters : list str) (s : State) : State * list Alert :=
  match letters with
  | [] => (s, [])
  | l :: letters' =>
      let '(s1, al1) := submitGuess l s in
      let '(s2, al2) := play letters' s1 in
      (s2, al1 ++ al2)
  end.

(* ================================================================== *)
(** ** Derived views *)

(** [displayWord] *)
Definition displayWord (s : State) : str :=
  join (lit " ")
    (List.map (fun letter =>
                 if Array_includes (guessedLetters s) letter then letter else lit "_")
              (split_chars (word s))).

(** [correctLetters] and [wrongLetters] *)
Definition correctLetters (s : State) : list str :=
  filter (fun letter => String_includes (word s) letter) (guessedLetters s).

Definition wrongLetters (s : State) : list str :=
  filter (fun letter => negb (String_includes (word s) letter)) (guessedLetters s).

(* ================================================================== *)
(** ** The drawing and the keyboard *)

(** The six views of [SCENE_ELEMENTS], named by their [key]. *)
Inductive SceneElement :=
| post_left | post_right | crossbar | net | yellow_card | red_card.

Definition SCENE_ELEMENTS : list SceneElement :=
  [ post_left; post_right; crossbar; net; yellow_card; red_card ].

(** [a.slice(0, n)] for a natural number [n]. *)
Definition slice0 {A : Type} (a : list A) (n : N) : list A :=
  firstn (N.to_nat n) a.

(** [PenaltyDrawing]: the scene elements drawn over the penalty area,
    [elementsToDraw = SCENE_ELEMENTS.slice(0, attempts)]. *)
Definition PenaltyDrawing (attempts : N) : list SceneElement :=
  let elementsToDraw := slice0 SCENE_ELEMENTS attempts in
  elementsToDraw.

(** One [TouchableOpacity] of the keyboard: its letter, whether it has
    the [keyButtonGuessed] style, and its [disabled] flag (which also
    decides the [keyButtonDisabled] style). *)
Record Key := mkKey {
  keyLetter : str;
  keyGuessed : bool;
  keyDisabled : bool
}.

(** [Keyboard]: one key per letter of [ALPHABET]. *)
Definition Keyboard (guessedLetters : list str) (gameStatus : Status)
  : list Key :=
  List.map (fun letter =>
              let isGuessed := Array_includes guessedLetters letter in
              let isDisabled := isGuessed || negb (Status_eqb gameStatus Playing) in
              mkKey letter isGuessed isDisabled)
           ALPHABET.

(** A touch on a key: a disabled [TouchableOpacity] does not call its
    [onPress]; an enabled one calls [handleGuess(letter)]. *)
Definition pressKey (k : Key) (s : State) : State * list Alert :=
  if keyDisabled k then (s, []) else submitGuess (keyLetter k) s.

(** The keyboard of the repository's second copy of the component, which
    also computes [isCorrect] and [isWrong] and puts
    [isGuessed && !isCorrect && styles.keyButtonWrong] in the style
    array of a key. *)
Module Colours.

(** The styles [StyleSheet.create] declares in that copy. *)
Definition declared : list string :=
  [ "safeArea"; "container"; "title"; "wordDisplay"; "attemptsText";
    "attemptsValue"; "drawingContainer"; "gallowsBase"; "gallowsVertical";
    "gallowsTop"; "gallowsRope"; "goalNet"; "hangmanHead"; "hangmanBody";
    "hangmanArm"; "hangmanLeftArm"; "hangmanRightArm"; "hangmanLeg";
    "hangmanLeftLeg"; "hangmanRightLeg"; "statusBox"; "statusBoxWin";
    "statusBoxLose"; "statusText"; "wordRevealText"; "wordRevealHighlight";
    "restartButton"; "restartButtonIcon"; "restartButtonText";
    "keyboardContainer"; "keyButton"; "keyButtonGuessed";
    "keyButtonDisabled"; "keyText"; "guessedLettersContainer";
    "guessedLettersTitle"; "letterList"; "guessedLetter"; "correctLetter";
    "wrongLetter" ]%string.

(** An entry of a style array: [false], [undefined], or a declared
    style. *)
Inductive StyleEntry :=
| entry_false
| entry_undefined
| entry_style (name : string).

(** [styles.name]: the declared style, or [undefined]. *)
Definition styles (name : string) : StyleEntry :=
  if existsb (String.eqb name) declared then entry_style name
  else entry_undefined.

(** [cond && v] for a boolean [cond]. *)
Definition and_then (cond : bool) (v : StyleEntry) : StyleEntry :=
  if cond then v else entry_false.

Record Key := mkKey {
  keyLetter : str;
  isGuessed : bool;
  isDisabled : bool;
  isCorrect : bool;
  isWrong : bool;
  keyStyle : list StyleEntry
}.

Definition Keyboard (guessedLetters : list str) (gameStatus : Status)
  : list Key :=
  List.map (fun letter =>
              let isGuessed := Array_includes guessedLetters letter in
              let isDisabled := isGuessed || negb (Status_eqb gameStatus Playing) in
              let isCorrect :=
                isGuessed && Array_includes guessedLetters letter
                && negb (Status_eqb gameStatus Playing)
                && String_includes letter letter in
              let isWrong := isGuessed && negb isCorrect in
              mkKey letter isGuessed isDisabled isCorrect isWrong
                    [ styles "keyButton";
                      and_then isGuessed (styles "keyButtonGuessed");
                      and_then (isGuessed && negb isCorrect)
                               (styles "keyButtonWrong");
                      and_then isDisabled (styles "keyButtonDisabled") ])
           ALPHABET.

End Colours.

(* ================================================================== *)
(** ** States a player can reach *)

(** The states between two events of a game: those after a fresh round
    and after any number of key presses. *)
Inductive reachable : State -> Prop :=
| reach_new : forall (r : double) (s0 : State),
    Math_random_returns r = true -> reachable (fst (startNewRound r s0))
| reach_guess : forall (letter : str) (s : State),
    reachable s -> reachable (fst (submitGuess letter s)).

(** A state on which the status effect has nothing left to set: what the
    component holds whenever it waits for the next event. *)
Definition settled (s : State) : Prop :=
  existsb is_set (statusEffect s) = false.

(* ================================================================== *)
(** ** Vocabulary of the statements *)

(** [s] with its [gameStatus] replaced. *)
Definition withStatus (s : State) (g : Status) : State :=
  mkState (word s) (guessedLetters s) (attempts s) g.

(** The state [handleGuess] commits when it accepts the letter. *)
Definition guessed (letter : str) (s : State) : State :=
  mkState (word s) (guessedLetters s ++ [letter])
          (if String_includes (word s) letter then attempts s
           else (attempts s + 1)%N)
          (gameStatus s).

(** The state [startNewGame] commits. *)
Definition freshRound (w : str) : State := mkState w [] 0 Playing.

(** A boolean test that the strings of an array are pairwise distinct. *)
Fixpoint distinctb (a : list str) : bool :=
  match a with
  | [] => true
  | x :: a' => negb (Array_includes a' x) && distinctb a'
  end.

(** The code unit [displayWord] shows for the letter [c] of the word:
    the letter once guessed, an underscore before. *)
Definition shown (s : State) (c : char) : char :=
  if Array_includes (guessedLetters s) [c] then c else 95%N.

(** [p] occurs in [w]: the meaning of [w.includes(p)]. *)
Definition occurs (p w : str) : Prop :=
  exists a b, w = a ++ p ++ b.

(* ================================================================== *)
(** ** Strings and arrays: what the primitives compute *)

Lemma str_eqb_eq (a b : str) : str_eqb a b = true <-> a = b.
Proof.
  revert b; induction a as [|x a IH]; intros [|y b]; simpl;
    try (split; [discriminate | congruence]); try tauto.
  unfold char_eqb. rewrite andb_true_iff, N.eqb_eq, IH.
  split; [intros [-> ->]; reflexivity | intros E; inversion E; auto].
Qed.

Lemma str_eqb_refl (a : str) : str_eqb a a = true.
Proof. apply str_eqb_eq; reflexivity. Qed.

Lemma Array_includes_In (a : list str) (x : str) :
  Array_includes a x = true <-> In x a.
Proof.
  unfold Array_includes. rewrite existsb_exists. split.
  - intros (y & Hy & E). apply str_eqb_eq in E. subst; assumption.
  - intros H. exists x. split; [assumption | apply str_eqb_refl].
Qed.

Lemma Array_includes_notIn (a : list str) (x : str) :
  Array_includes a x = false <-> ~ In x a.
Proof.
  rewrite <- Array_includes_In. destruct (Array_includes a x); split;
    congruence || (intros H; exfalso; apply H; reflexivity) || auto.
Qed.

Lemma Array_includes_app (a b : list str) (x : str) :
  Array_includes (a ++ b) x = Array_includes a x || Array_includes b x.
Proof. unfold Array_includes. apply existsb_app. Qed.

Lemma startsWith_spec (w p : str) :
  startsWith w p = true <-> exists b, w = p ++ b.
Proof.
  revert w; induction p as [|y p IH]; intros w; simpl.
  - destruct w; split; eauto.
  - destruct w as [|x w]; simpl.
    + split; [discriminate | intros (b & E); discriminate E].
    + unfold char_eqb. rewrite andb_true_iff, N.eqb_eq, IH. split.
      * intros (-> & b & ->). exists b; reflexivity.
      * intros (b & E). inversion E; subst. split; eauto.
Qed.

Lemma String_includes_spec (w p : str) :
  String_includes w p = true <-> occurs p w.
Proof.
  unfold occurs. induction w as [|x w IH]; cbn [String_includes].
  - rewrite orb_false_r, startsWith_spec. split.
    + intros (b & E). exists [], b. exact E.
    + intros (a & b & E). destruct a; [eauto|discriminate E].
  - rewrite orb_true_iff, startsWith_spec, IH. split.
    + intros [(b & E) | (a & b & E)].
      * exists [], b. exact E.
      * exists (x :: a), b. simpl; congruence.
    + intros ([|y a] & b & E).
      * left. exists b. exact E.
      * right. inversion E; subst. eauto.
Qed.

(** For a one-letter guess, [word.includes(letter)] is membership of the
    letter in the word. *)
Lemma String_includes_char (w : str) (c : char) :
  String_includes w [c] = true <-> In c w.
Proof.
  rewrite String_includes_spec. unfold occurs. split.
  - intros (a & b & ->). apply in_or_app. right. left. reflexivity.
  - intros H. apply in_split in H. destruct H as (a & b & ->).
    exists a, b. reflexivity.
Qed.

Lemma uniq_from_In (seen a : list str) (x : str) :
  In x (uniq_from seen a) <-> In x a /\ ~ In x seen.
Proof.
  revert seen; induction a as [|y a IH]; intros seen; simpl.
  - tauto.
  - destruct (Array_includes seen y) eqn:E.
    + apply Array_includes_In in E. rewrite IH. split.
      * tauto.
      * intros [[-> | H] N]; [contradiction | tauto].
    + apply Array_includes_notIn in E. simpl. rewrite IH, in_app_iff. simpl.
      split.
      * intros [-> | (H & N)]; tauto.
      * intros [[-> | H] N]; [tauto |].
        destruct (list_eq_dec N.eq_dec y x) as [-> | D]; [tauto |].
        right. split; [assumption | intros [? | [? | []]]; tauto].
Qed.

Lemma uniq_from_NoDup (seen a : list str) : NoDup (uniq_from seen a).
Proof.
  revert seen; induction a as [|y a IH]; intros seen; simpl.
  - constructor.
  - destruct (Array_includes seen y); [apply IH |].
    constructor; [| apply IH].
    rewrite uniq_from_In, in_app_iff. simpl. tauto.
Qed.

Lemma spread_Set_In (a : list str) (x : str) : In x (spread_Set a) <-> In x a.
Proof. unfold spread_Set. rewrite uniq_from_In. simpl. tauto. Qed.

Lemma split_chars_In (w : str) (l : str) :
  In l (split_chars w) <-> exists c, l = [c] /\ In c w.
Proof.
  unfold split_chars. rewrite in_map_iff. split; intros (c & H1 & H2); eauto.
Qed.

(** The win test: every letter of the word is among the guesses. *)
Lemma hasWon_spec (s : State) :
  hasWon s = true <-> forall c, In c (word s) -> In [c] (guessedLetters s).
Proof.
  unfold hasWon. rewrite forallb_forall. split.
  - intros H c Hc. apply Array_includes_In, H, spread_Set_In, split_chars_In.
    eauto.
  - intros H l Hl. apply spread_Set_In, split_chars_In in Hl.
    destruct Hl as (c & -> & Hc). apply Array_includes_In, H, Hc.
Qed.

Lemma hasWon_false (s : State) :
  hasWon s = false <-> exists c, In c (word s) /\ ~ In [c] (guessedLetters s).
Proof.
  split.
  - intros E. unfold hasWon in E.
    assert (X : exists l, In l (spread_Set (split_chars (word s)))
                          /\ Array_includes (guessedLetters s) l = false).
    { induction (spread_Set (split_chars (word s))) as [|l u IH];
        simpl in E; [discriminate |].
      apply andb_false_iff in E. destruct E as [E | E].
      - exists l; simpl; auto.
      - destruct (IH E) as (l' & ? & ?). exists l'; simpl; auto. }
    destruct X as (l & Hl & N).
    apply spread_Set_In, split_chars_In in Hl. destruct Hl as (c & -> & Hc).
    exists c. split; [assumption | apply Array_includes_notIn, N].
  - intros (c & Hc & N). destruct (hasWon s) eqn:E; [| reflexivity].
    exfalso. apply N. apply hasWon_spec; assumption.
Qed.

(* ================================================================== *)
(** ** The render cycle: what one event does *)

Lemma Status_eqb_eq (a b : Status) : Status_eqb a b = true <-> a = b.
Proof. destruct a, b; simpl; split; congruence. Qed.

Ltac effect_guard s :=
  unfold statusEffect;
  destruct (word s) eqn:?; [congruence |];
  match goal with H : gameStatus s = Playing |- _ => rewrite H end;
  cbn [Status_eqb negb orb].

Lemma statusEffect_idle (s : State) :
  word s = [] \/ gameStatus s <> Playing -> statusEffect s = [].
Proof.
  intros H. unfold statusEffect.
  destruct (word s); [reflexivity |].
  destruct (gameStatus s); simpl; try reflexivity.
  destruct H; congruence.
Qed.

Lemma statusEffect_won (s : State) :
  word s <> [] -> gameStatus s = Playing -> hasWon s = true ->
  statusEffect s = [setGameStatus Won].
Proof. intros Hw Hp Hh. effect_guard s. rewrite Hh. reflexivity. Qed.

Lemma statusEffect_lost (s : State) :
  word s <> [] -> gameStatus s = Playing -> hasWon s = false ->
  (MAX_ATTEMPTS <= attempts s)%N ->
  statusEffect s =
    [setGameStatus Lost; alert (mkAlert redCardTitle (redCardMessage (word s)))].
Proof.
  intros Hw Hp Hh Ha. effect_guard s. rewrite Hh.
  apply N.leb_le in Ha. rewrite Ha. reflexivity.
Qed.

Lemma statusEffect_go_on (s : State) :
  word s <> [] -> gameStatus s = Playing -> hasWon s = false ->
  (attempts s < MAX_ATTEMPTS)%N ->
  statusEffect s = [].
Proof.
  intros Hw Hp Hh Ha. effect_guard s. rewrite Hh.
  apply N.leb_gt in Ha. rewrite Ha. reflexivity.
Qed.

Lemma runEffects_idle (n : nat) (s : State) :
  word s = [] \/ gameStatus s <> Playing -> runEffects n s = (s, []).
Proof.
  intros H. destruct n; simpl; [reflexivity |].
  rewrite statusEffect_idle by assumption. reflexivity.
Qed.

Lemma runEffects_won (n : nat) (s : State) :
  word s <> [] -> gameStatus s = Playing -> hasWon s = true ->
  runEffects (S n) s = (withStatus s Won, []).
Proof.
  intros Hw Hp Hh. cbn [runEffects].
  rewrite statusEffect_won by assumption. cbn.
  fold (withStatus s Won).
  rewrite runEffects_idle by (right; simpl; discriminate). reflexivity.
Qed.

Lemma runEffects_lost (n : nat) (s : State) :
  word s <> [] -> gameStatus s = Playing -> hasWon s = false ->
  (MAX_ATTEMPTS <= attempts s)%N ->
  runEffects (S n) s =
    (withStatus s Lost, [mkAlert redCardTitle (redCardMessage (word s))]).
Proof.
  intros Hw Hp Hh Ha. cbn [runEffects].
  rewrite statusEffect_lost by assumption. cbn.
  fold (withStatus s Lost).
  rewrite runEffects_idle by (right; simpl; discriminate). reflexivity.
Qed.

Lemma runEffects_go_on (n : nat) (s : State) :
  word s <> [] -> gameStatus s = Playing -> hasWon s = false ->
  (attempts s < MAX_ATTEMPTS)%N ->
  runEffects n s = (s, []).
Proof.
  intros Hw Hp Hh Ha. destruct n; [reflexivity |]. cbn [runEffects].
  rewrite statusEffect_go_on by assumption. reflexivity.
Qed.

(** The case analysis every proof about an event starts from. *)
Lemma runEffects_cases (s : State) :
  (word s = [] \/ gameStatus s <> Playing) \/
  (word s <> [] /\ gameStatus s = Playing /\
   (hasWon s = true \/
    hasWon s = false /\
    ((MAX_ATTEMPTS <= attempts s)%N \/ (attempts s < MAX_ATTEMPTS)%N))).
Proof.
  destruct (word s) eqn:Ew; [auto |].
  destruct (gameStatus s) eqn:Eg; try (left; right; discriminate).
  right. split; [discriminate |]. split; [reflexivity |].
  destruct (hasWon s); [auto |]. right. split; [reflexivity | lia].
Qed.

(** One pass of the effect already reaches the fixed point, so the bound
    of [renderPasses] loses nothing. *)
Lemma runEffects_fuel (n : nat) (s : State) :
  runEffects (S n) s = runEffects 1 s.
Proof.
  destruct (runEffects_cases s) as [H | (Hw & Hp & [Hh | (Hh & [Ha | Ha])])].
  - rewrite !runEffects_idle by assumption. reflexivity.
  - rewrite !runEffects_won by assumption. reflexivity.
  - rewrite !runEffects_lost by assumption. reflexivity.
  - rewrite !runEffects_go_on by assumption. reflexivity.
Qed.

Lemma runEffects_settled (n : nat) (s : State) :
  settled (fst (runEffects (S n) s)).
Proof.
  unfold settled.
  destruct (runEffects_cases s) as [H | (Hw & Hp & [Hh | (Hh & [Ha | Ha])])].
  - rewrite runEffects_idle by assumption. simpl.
    rewrite statusEffect_idle by assumption. reflexivity.
  - rewrite runEffects_won by assumption. simpl.
    rewrite statusEffect_idle by (right; simpl; discriminate). reflexivity.
  - rewrite runEffects_lost by assumption. simpl.
    rewrite statusEffect_idle by (right; simpl; discriminate). reflexivity.
  - rewrite runEffects_go_on by assumption. simpl.
    rewrite statusEffect_go_on by assumption. reflexivity.
Qed.

Lemma runEffects_word (n : nat) (s : State) :
  word (fst (runEffects n s)) = word s
  /\ guessedLetters (fst (runEffects n s)) = guessedLetters s
  /\ attempts (fst (runEffects n s)) = attempts s.
Proof.
  destruct n; [simpl; auto |].
  destruct (runEffects_cases s) as [H | (Hw & Hp & [Hh | (Hh & [Ha | Ha])])].
  - rewrite runEffects_idle by assumption. auto.
  - rewrite runEffects_won by assumption. auto.
  - rewrite runEffects_lost by assumption. auto.
  - rewrite runEffects_go_on by assumption. auto.
Qed.

Lemma submitGuess_ignored (letter : str) (s : State) :
  gameStatus s <> Playing \/ In letter (guessedLetters s) ->
  submitGuess letter s = (s, []).
Proof.
  intros H. unfold submitGuess, handleGuess.
  replace (negb (Status_eqb (gameStatus s) Playing)
           || Array_includes (guessedLetters s) letter) with true;
    [reflexivity |].
  symmetry. apply orb_true_iff. destruct H as [H | H].
  - left. destruct (gameStatus s); simpl; congruence.
  - right. apply Array_includes_In, H.
Qed.

Lemma submitGuess_accepted (letter : str) (s : State) :
  gameStatus s = Playing -> ~ In letter (guessedLetters s) ->
  submitGuess letter s = runEffects renderPasses (guessed letter s).
Proof.
  intros Hp Hn. unfold submitGuess, handleGuess, guessed.
  rewrite Hp. apply Array_includes_notIn in Hn. rewrite Hn.
  cbn [Status_eqb negb orb].
  destruct (String_includes (word s) letter); unfold dispatch;
    cbn [existsb is_set orb negb apply_actions fold_left apply_action
         alerts_of app word guessedLetters attempts gameStatus];
    rewrite Hp;
    match goal with |- context [runEffects ?n ?x] =>
      destruct (runEffects n x) end; reflexivity.
Qed.

Lemma submitGuess_cases (letter : str) (s : State) :
  (gameStatus s <> Playing \/ In letter (guessedLetters s)) \/
  (gameStatus s = Playing /\ ~ In letter (guessedLetters s)).
Proof.
  destruct (gameStatus s); try (left; left; discriminate).
  destruct (in_dec (list_eq_dec N.eq_dec) letter (guessedLetters s)); auto.
Qed.

Lemma startNewRound_eq (r : double) (s : State) :
  startNewRound r s =
  runEffects renderPasses
    (freshRound (Array_get WORDS (randomIndex r))).
Proof.
  unfold startNewRound, dispatch, startNewGame, freshRound.
  cbn [existsb is_set orb apply_actions fold_left apply_action alerts_of app].
  cbn [word guessedLetters attempts gameStatus].
  destruct (runEffects _ _); reflexivity.
Qed.

(* ================================================================== *)
(** ** The word list *)

Lemma distinctb_NoDup (a : list str) : distinctb a = true -> NoDup a.
Proof.
  induction a as [|x a IH]; simpl; intros H; constructor;
    apply andb_true_iff in H; destruct H as [H1 H2].
  - apply Array_includes_notIn. destruct (Array_includes a x);
      [discriminate | reflexivity].
  - apply IH, H2.
Qed.

Lemma WORDS_NoDup : NoDup WORDS.
Proof. apply distinctb_NoDup. vm_compute. reflexivity. Qed.

Lemma WORDS_nonempty (w : str) : In w WORDS -> w <> [].
Proof.
  assert (F : Forall (fun w => w <> []) WORDS)
    by (repeat constructor; discriminate).
  rewrite Forall_forall in F. apply F.
Qed.

(** C8, as the code has it: the compiled-in word list holds exactly 30
    words, pairwise distinct, and the maximum number of wrong attempts
    is 6. *)
Theorem WORDS_has_30_entries :
  List.length WORDS = 30%nat /\ NoDup WORDS /\ MAX_ATTEMPTS = 6%N.
Proof. split; [reflexivity | split; [apply WORDS_NoDup | reflexivity]]. Qed.

(** C8, as stated (29 words, maximum 6), fails on the list of the
    source. *)
Lemma WORDS_not_29_entries :
  ~ (List.length WORDS = 29%nat /\ MAX_ATTEMPTS = 6%N).
Proof. intros [H _]. vm_compute in H. discriminate H. Qed.

(* ================================================================== *)
(** ** Ignored guesses *)

(** C3: when the round is over, or the letter was guessed before,
    [submitGuess] calls no setter and no alert: word, guessed letters,
    wrong attempts and phase are what they were, and nothing is
    signalled. *)
Theorem submitGuess_noop (s : State) (letter : str) :
  gameStatus s <> Playing \/ In letter (guessedLetters s) ->
  handleGuess letter s = []
  /\ submitGuess letter s = (s, [])
  /\ word (fst (submitGuess letter s)) = word s
  /\ guessedLetters (fst (submitGuess letter s)) = guessedLetters s
  /\ attempts (fst (submitGuess letter s)) = attempts s
  /\ gameStatus (fst (submitGuess letter s)) = gameStatus s.
Proof.
  intros H. rewrite submitGuess_ignored by assumption. simpl.
  repeat split. unfold handleGuess.
  destruct H as [H | H].
  - destruct (gameStatus s); simpl; congruence.
  - apply Array_includes_In in H. rewrite H, orb_true_r. reflexivity.
Qed.

Lemma submitGuess_noop_witness :
  let s := mkState (lit "GOL") [lit "G"; lit "X"] 1 Playing in
  In (lit "X") (guessedLetters s) /\ submitGuess (lit "X") s = (s, []).
Proof.
  intros s.
  assert (H : In (lit "X") (guessedLetters s)) by (simpl; auto).
  split; [exact H |].
  exact (proj1 (proj2 (submitGuess_noop s (lit "X") (or_intror H)))).
Defined.

(** C5: pressing the same letter twice in a row leaves the game where
    the first press left it, and shows no alert beyond those of the first
    press. *)
Theorem submitGuess_idempotent (s : State) (letter : str) :
  submitGuess letter (fst (submitGuess letter s))
    = (fst (submitGuess letter s), [])
  /\ play [letter; letter] s = play [letter] s
  /\ displayWord (fst (play [letter; letter] s))
     = displayWord (fst (play [letter] s)).
Proof.
  assert (A : submitGuess letter (fst (submitGuess letter s))
              = (fst (submitGuess letter s), [])).
  { destruct (submitGuess_cases letter s) as [H | [Hp Hn]].
    - rewrite (submitGuess_ignored letter s H). simpl.
      apply submitGuess_ignored, H.
    - apply submitGuess_ignored. right.
      rewrite submitGuess_accepted by assumption.
      destruct (runEffects_word renderPasses (guessed letter s)) as (_ & -> & _).
      simpl. apply in_or_app. right. left. reflexivity. }
  assert (B : play [letter; letter] s = play [letter] s).
  { cbn [play]. destruct (submitGuess letter s) as [s1 al1] eqn:E.
    simpl in A. rewrite A. reflexivity. }
  split; [exact A |]. split; [exact B |]. rewrite B. reflexivity.
Qed.

(* ================================================================== *)
(** ** Accepted guesses *)

(** C1: in a running round, on a word of the game, a letter not guessed
    before is appended to the guessed letters; the wrong attempts grow
    by one exactly when the letter does not occur in the word; and the
    phase is then Won if every letter of the word is guessed, else Lost
    if the wrong attempts are at least 6, else still in progress. *)
Theorem submitGuess_accepts (s : State) (letter : str) :
  gameStatus s = Playing ->
  ~ In letter (guessedLetters s) ->
  word s <> [] ->
  let s' := fst (submitGuess letter s) in
  let allGuessed := forall c, In c (word s') -> In [c] (guessedLetters s') in
  word s' = word s
  /\ guessedLetters s' = guessedLetters s ++ [letter]
  /\ (attempts s' = (attempts s + 1)%N <-> ~ occurs letter (word s))
  /\ (attempts s' = attempts s <-> occurs letter (word s))
  /\ (allGuessed -> gameStatus s' = Won)
  /\ (~ allGuessed -> (MAX_ATTEMPTS <= attempts s')%N -> gameStatus s' = Lost)
  /\ (~ allGuessed -> (attempts s' < MAX_ATTEMPTS)%N -> gameStatus s' = Playing).
Proof.
  intros Hp Hn Hw s' allGuessed. subst s' allGuessed.
  rewrite submitGuess_accepted by assumption.
  destruct (runEffects_word renderPasses (guessed letter s)) as (Ew & Eg & Ea).
  rewrite Ew, Eg, Ea.
  split; [reflexivity |]. split; [reflexivity |].
  split; [| split].
  - cbn [guessed attempts]. rewrite <- String_includes_spec.
    destruct (String_includes (word s) letter); split;
      try congruence; try lia.
  - cbn [guessed attempts]. rewrite <- String_includes_spec.
    destruct (String_includes (word s) letter); split;
      try congruence; try lia.
  - assert (Hw' : word (guessed letter s) <> []) by exact Hw.
    assert (Hp' : gameStatus (guessed letter s) = Playing) by exact Hp.
    pose proof (hasWon_spec (guessed letter s)) as HW.
    unfold renderPasses.
    destruct (hasWon (guessed letter s)) eqn:Hh.
    + rewrite runEffects_won by assumption. simpl.
      split; [reflexivity |].
      split; intros N; exfalso; apply N, HW; reflexivity.
    + assert (NA : ~ (forall c, In c (word (guessed letter s)) ->
                             In [c] (guessedLetters (guessed letter s))))
        by (intros A; apply HW in A; discriminate A).
      split; [intros A; contradiction |].
      split; intros _ Hle.
      * rewrite runEffects_lost by assumption. reflexivity.
      * rewrite runEffects_go_on by assumption. exact Hp.
Qed.

Lemma submitGuess_accepts_witness :
  let s := mkState (lit "GOL") [lit "G"] 5 Playing in
  let s' := fst (submitGuess (lit "X") s) in
  guessedLetters s' = [lit "G"; lit "X"]
  /\ (attempts s' = 6%N <-> ~ occurs (lit "X") (lit "GOL")).
Proof.
  intros s s'.
  assert (Hp : gameStatus s = Playing) by reflexivity.
  assert (Hn : ~ In (lit "X") (guessedLetters s))
    by (simpl; intros [E | []]; discriminate E).
  assert (Hw : word s <> []) by discriminate.
  pose proof (submitGuess_accepts s (lit "X") Hp Hn Hw) as T.
  split; [exact (proj1 (proj2 T)) | exact (proj1 (proj2 (proj2 T)))].
Defined.

(* ================================================================== *)
(** ** Starting a round *)

(** *** The rounded product of [Math.random()] and the array length *)

Local Open Scope Z_scope.
Unset Implicit Arguments.

(** The number of binary digits of a positive number. *)
Lemma digits2_size (p : positive) : digits2_pos p = Pos.size p.
Proof. induction p; simpl; congruence. Qed.

Lemma Zdigits2_bounds (z : Z) :
  0 < z -> 2 ^ (Zdigits2 z - 1) <= z < 2 ^ Zdigits2 z.
Proof.
  destruct z as [|p|p]; try lia. intros _. simpl Zdigits2.
  rewrite digits2_size.
  pose proof (Pos.size_gt p) as G. pose proof (Pos.size_le p) as L.
  assert (E : Zpos (2 ^ Pos.size p) = 2 ^ Zpos (Pos.size p))
    by (rewrite Pos2Z.inj_pow; reflexivity).
  split.
  - assert (2 ^ Zpos (Pos.size p) <= 2 * Zpos p) by lia.
    replace (2 ^ Zpos (Pos.size p)) with (2 * 2 ^ (Zpos (Pos.size p) - 1)) in H.
    + lia.
    + rewrite <- Z.pow_succ_r by lia. f_equal. lia.
  - lia.
Qed.

Lemma Zdigits2_le (z k : Z) : 0 <= k -> 0 <= z < 2 ^ k -> Zdigits2 z <= k.
Proof.
  intros Hk [H0 H1]. destruct (Z.eq_dec z 0) as [-> | N]; [simpl; lia |].
  destruct (Zdigits2_bounds z ltac:(lia)) as [L _].
  destruct (Z_le_gt_dec (Zdigits2 z) k) as [|G]; [assumption |].
  exfalso. assert (2 ^ k <= 2 ^ (Zdigits2 z - 1)) by (apply Z.pow_le_mono_r; lia).
  lia.
Qed.

(** Shifting right by [p] bits is [p] single shifts. *)
Lemma iter_pos_nat {A : Type} (f : A -> A) (p : positive) (x : A) :
  iter_pos f p x = Nat.iter (Pos.to_nat p) f x.
Proof.
  revert x; induction p as [p IH | p IH |]; intros x; cbn [iter_pos].
  - rewrite !IH, Pos2Nat.inj_xI.
    replace (S (2 * Pos.to_nat p)) with (Pos.to_nat p + (Pos.to_nat p + 1))%nat by lia.
    rewrite !Nat.iter_add. reflexivity.
  - rewrite !IH, Pos2Nat.inj_xO.
    replace (2 * Pos.to_nat p)%nat with (Pos.to_nat p + Pos.to_nat p)%nat by lia.
    rewrite Nat.iter_add. reflexivity.
  - reflexivity.
Qed.

(** One shift halves the mantissa and keeps the bit shifted out as the
    round bit. *)
Lemma shr_1_spec (mrs : shr_record) :
  0 <= shr_m mrs ->
  shr_m (shr_1 mrs) = shr_m mrs / 2 /\ shr_r (shr_1 mrs) = Z.odd (shr_m mrs).
Proof.
  destruct mrs as [m r s]. simpl. intros H.
  destruct m as [|[p|p|]|p]; try lia; simpl; split; try reflexivity.
  - rewrite Pos2Z.inj_xI. apply Z.div_unique with (r := 1); lia.
  - rewrite Pos2Z.inj_xO. apply Z.div_unique with (r := 0); lia.
Qed.

Lemma shr_iter_m (k : nat) (mrs : shr_record) :
  0 <= shr_m mrs ->
  shr_m (Nat.iter k shr_1 mrs) = shr_m mrs / 2 ^ Z.of_nat k.
Proof.
  intros H. induction k as [|k IH].
  - simpl. rewrite Z.div_1_r. reflexivity.
  - rewrite Nat.iter_succ.
    assert (P : 0 <= shr_m (Nat.iter k shr_1 mrs))
      by (rewrite IH; apply Z.div_pos; lia).
    rewrite (proj1 (shr_1_spec _ P)), IH, Z.div_div by lia.
    rewrite Nat2Z.inj_succ, Z.pow_succ_r by lia. f_equal. lia.
Qed.

Lemma shr_iter_r (k : nat) (mrs : shr_record) :
  0 <= shr_m mrs ->
  shr_r (Nat.iter (S k) shr_1 mrs) = Z.testbit (shr_m mrs) (Z.of_nat k).
Proof.
  intros H. rewrite Nat.iter_succ.
  assert (P : 0 <= shr_m (Nat.iter k shr_1 mrs))
    by (rewrite shr_iter_m by assumption; apply Z.div_pos; lia).
  rewrite (proj2 (shr_1_spec _ P)), shr_iter_m by assumption.
  rewrite Z.testbit_odd, Z.shiftr_div_pow2 by lia. reflexivity.
Qed.

(** Rounding to nearest keeps the truncated mantissa or adds one, the
    latter only when the round bit is set. *)
Lemma round_nearest_even_cases (mrs : shr_record) :
  let q' := round_nearest_even (shr_m mrs) (loc_of_shr_record mrs) in
  q' = shr_m mrs \/ (q' = shr_m mrs + 1 /\ shr_r mrs = true).
Proof.
  destruct mrs as [m [|] [|]]; simpl; auto.
  destruct (Z.even m); auto.
Qed.

Lemma testbit_half (P n : Z) :
  0 <= P -> 0 < n -> Z.testbit P (n - 1) = true ->
  2 ^ (n - 1) <= P mod 2 ^ n.
Proof.
  intros HP Hn Hb.
  apply Z.testbit_true in Hb; [| lia].
  replace (2 ^ n) with (2 ^ (n - 1) * 2)
    by (rewrite Z.mul_comm, <- Z.pow_succ_r by lia; f_equal; lia).
  rewrite Z.rem_mul_r by lia. rewrite Hb.
  pose proof (Z.mod_pos_bound P (2 ^ (n - 1)) ltac:(lia)). lia.
Qed.

(** [Math_floor] of a number with a negative exponent is a floored
    division. *)
Lemma shiftl_floor (a e : Z) : e <= 0 -> Z.shiftl a e = a / 2 ^ (- e).
Proof.
  intros H. rewrite <- Z.shiftr_opp_r, Z.shiftr_div_pow2 by lia. reflexivity.
Qed.

(** The renormalisation after rounding does not change the floor. *)
Lemma finish_floor (q' t n2 : Z) (mrs : shr_record) (e'' : Z) :
  0 <= q' -> t <= 0 ->
  n2 = fexp 53 1024 (Zdigits2 q' + t) - t ->
  fexp 53 1024 (Zdigits2 q' + t) <= 0 ->
  (mrs, e'') = shr (Build_shr_record q' false false) t n2 ->
  Math_floor
    match shr_m mrs with
    | 0 => S754_zero false
    | Zpos m => if e'' <=? 1024 - 53 then S754_finite false m e''
                else S754_infinity false
    | Zneg _ => S754_nan
    end = Some (q' / 2 ^ (- t)).
Proof.
  intros Hq Ht En2 Hf E.
  assert (M : shr_m mrs = q' / 2 ^ (e'' - t) /\ t <= e'' <= 0).
  { destruct n2 as [|p2|p2]; simpl in E; inversion E; subst.
    - rewrite Z.sub_diag, Z.div_1_r. simpl. lia.
    - rewrite iter_pos_nat, shr_iter_m by (simpl; lia). simpl shr_m.
      rewrite positive_nat_Z. split; [f_equal; f_equal; lia | lia].
    - rewrite Z.sub_diag, Z.div_1_r. simpl. lia. }
  destruct M as (Em & Ht' & He).
  assert (F : q' / 2 ^ (- t) = shr_m mrs / 2 ^ (- e'')).
  { rewrite Em, Z.div_div by lia. rewrite <- Z.pow_add_r by lia.
    f_equal. f_equal. lia. }
  rewrite F.
  assert (Hm : 0 <= shr_m mrs) by (rewrite Em; apply Z.div_pos; lia).
  destruct (shr_m mrs) as [|m|m]; try lia.
  - simpl. rewrite Z.div_0_l by lia. reflexivity.
  - replace (e'' <=? 1024 - 53) with true by (symmetry; apply Z.leb_le; lia).
    simpl Math_floor. rewrite shiftl_floor by lia. reflexivity.
Qed.

(** The floor of a rounded positive number below [2^52]: the mantissa
    [P] is cut by [n] bits to [q'], rounded to nearest, and floored. *)
Lemma round_aux_floor (P : positive) (ex : Z) :
  let t := fexp 53 1024 (Zdigits2 (Zpos P) + ex) in
  let n := t - ex in
  0 < n -> Zdigits2 (Zpos P) + ex <= 52 ->
  exists q' : Z,
    (q' = Zpos P / 2 ^ n
     \/ (q' = Zpos P / 2 ^ n + 1 /\ Z.testbit (Zpos P) (n - 1) = true))
    /\ Math_floor (binary_round_aux 53 1024 false (Zpos P) ex loc_Exact)
       = Some (q' / 2 ^ (- t)).
Proof.
  intros t n Hn Hd.
  assert (Ht : t <= -1) by (subst t; unfold fexp, emin; lia).
  unfold binary_round_aux, shr_fexp. fold t. fold n.
  destruct n as [|p|p] eqn:En; try lia.
  cbn [shr shr_record_of_loc].
  set (mrs' := iter_pos shr_1 p (Build_shr_record (Zpos P) false false)).
  assert (Em : shr_m mrs' = Zpos P / 2 ^ Zpos p)
    by (subst mrs'; rewrite iter_pos_nat, shr_iter_m by (simpl; lia);
        simpl shr_m; rewrite positive_nat_Z; reflexivity).
  assert (Er : shr_r mrs' = Z.testbit (Zpos P) (Zpos p - 1)).
  { subst mrs'. rewrite iter_pos_nat.
    destruct (Pos.to_nat p) as [|k] eqn:Ek; [lia |].
    rewrite shr_iter_r by (simpl; lia). simpl shr_m. f_equal. lia. }
  replace (ex + Zpos p) with t by lia.
  set (q' := round_nearest_even (shr_m mrs') (loc_of_shr_record mrs')).
  assert (Cq : q' = Zpos P / 2 ^ Zpos p
               \/ (q' = Zpos P / 2 ^ Zpos p + 1
                   /\ Z.testbit (Zpos P) (Zpos p - 1) = true)).
  { destruct (round_nearest_even_cases mrs') as [E | [E R]]; fold q' in E.
    - left. congruence.
    - right. split; congruence. }
  exists q'. split; [exact Cq |].
  assert (Hq0 : 0 <= Zpos P / 2 ^ Zpos p) by (apply Z.div_pos; lia).
  assert (Hq : 0 <= q') by (destruct Cq as [-> | [-> _]]; lia).
  assert (Hf : fexp 53 1024 (Zdigits2 q' + t) <= 0).
  { assert (Dq : Zdigits2 q' <= Z.max (Zdigits2 (Zpos P) - Zpos p) 0 + 1).
    { apply Zdigits2_le; [lia |]. split; [exact Hq |].
      assert (B : Zpos P / 2 ^ Zpos p
                  < 2 ^ Z.max (Zdigits2 (Zpos P) - Zpos p) 0).
      { destruct (Zdigits2_bounds (Zpos P) ltac:(lia)) as [_ U].
        apply Z.div_lt_upper_bound; [lia |].
        rewrite <- Z.pow_add_r by lia.
        eapply Z.lt_le_trans; [exact U |].
        apply Z.pow_le_mono_r; lia. }
      rewrite Z.pow_add_r, Z.pow_1_r by lia.
      destruct Cq as [-> | [-> _]]; lia. }
    unfold fexp, emin. lia. }
  destruct (shr (Build_shr_record q' false false) t
              (fexp 53 1024 (Zdigits2 q' + t) - t)) as [mrs'' e''] eqn:E2.
  apply (@finish_floor q' t _ mrs'' e'' Hq ltac:(lia) eq_refl Hf).
  symmetry. exact E2.
Qed.

(** The mantissa of 30 has 53 digits, so the product of mantissas has
    52 or 53 digits more than that of [r]. *)
Lemma digits_product (m : positive) :
  let P := Zpos (m * 8444249301319680) in
  Zdigits2 (Zpos m) + 52 <= Zdigits2 P <= Zdigits2 (Zpos m) + 53.
Proof.
  intros P.
  destruct (Zdigits2_bounds (Zpos m) ltac:(lia)) as [Lm Um].
  destruct (Zdigits2_bounds P ltac:(subst P; lia)) as [LP UP].
  assert (EP : P = Zpos m * 8444249301319680) by (subst P; lia).
  assert (Dm : 1 <= Zdigits2 (Zpos m)) by (simpl; lia).
  assert (DP : 1 <= Zdigits2 P) by (subst P; simpl; lia).
  split.
  - destruct (Z_le_gt_dec (Zdigits2 (Zpos m) + 52) (Zdigits2 P)) as [|G];
      [assumption | exfalso].
    assert (2 ^ Zdigits2 P <= 2 ^ (Zdigits2 (Zpos m) - 1 + 52))
      by (apply Z.pow_le_mono_r; lia).
    rewrite Z.pow_add_r in H by lia.
    change (2 ^ 52) with 4503599627370496 in H. nia.
  - destruct (Z_le_gt_dec (Zdigits2 P) (Zdigits2 (Zpos m) + 53)) as [|G];
      [assumption | exfalso].
    assert (2 ^ (Zdigits2 (Zpos m) + 53) <= 2 ^ (Zdigits2 P - 1))
      by (apply Z.pow_le_mono_r; lia).
    rewrite Z.pow_add_r in H by lia.
    change (2 ^ 53) with 9007199254740992 in H. nia.
Qed.

(** The index drawn for a positive double [m * 2^e] below 1: it is
    within the array, above [30 r - 1], and at most [30 r (1 + 2^-53)]. *)
Lemma product_floor (m : positive) (e : Z) :
  bounded 53 1024 m e = true -> e <= -53 ->
  exists i : Z,
    randomIndex (S754_finite false m e) = Some i
    /\ 30 * Zpos m < (i + 1) * 2 ^ (- e)
    /\ i * 9007199254740992 * 2 ^ (- e) <= 30 * Zpos m * 9007199254740993
    /\ 0 <= i < 30.
Proof.
  intros Hb He.
  unfold bounded, canonical_mantissa in Hb.
  apply andb_true_iff in Hb. destruct Hb as [Hc _].
  apply Z.eqb_eq in Hc. unfold fexp, emin in Hc.
  change (Zpos (digits2_pos m)) with (Zdigits2 (Zpos m)) in Hc.
  destruct (Zdigits2_bounds (Zpos m) ltac:(lia)) as [Lm Um].
  pose proof (digits_product m) as DP. cbv zeta in DP.
  unfold randomIndex, double_mul.
  change (SFmul 53 1024 (S754_finite false m e)
                (double_of_nat (List.length WORDS)))
    with (binary_round_aux 53 1024 false
            (Zpos (m * 8444249301319680)) (e + -48) loc_Exact).
  set (P := (m * 8444249301319680)%positive) in *.
  set (ex := e + -48).
  assert (Hn : 0 < fexp 53 1024 (Zdigits2 (Zpos P) + ex) - ex)
    by (unfold fexp, emin; subst ex; lia).
  assert (Hd : Zdigits2 (Zpos P) + ex <= 52) by (subst ex; lia).
  destruct (round_aux_floor P ex Hn Hd) as (q' & Cq & Ef).
  set (t := fexp 53 1024 (Zdigits2 (Zpos P) + ex)) in *.
  set (n := t - ex) in *.
  exists (q' / 2 ^ (- t)). split; [exact Ef |].
  assert (Ht : t <= -1) by (subst t; unfold fexp, emin; lia).
  assert (HT : 0 < 2 ^ (- t)) by (apply Z.pow_pos_nonneg; lia).
  assert (HN : 0 < 2 ^ n) by (apply Z.pow_pos_nonneg; lia).
  assert (HA : 9007199254740992 <= 2 ^ (- e))
    by (change 9007199254740992 with (2 ^ 53); apply Z.pow_le_mono_r; lia).
  assert (NT : 2 ^ n * 2 ^ (- t) = 281474976710656 * 2 ^ (- e)).
  { rewrite <- Z.pow_add_r by lia. change 281474976710656 with (2 ^ 48).
    rewrite <- Z.pow_add_r by lia. f_equal. subst n ex. lia. }
  assert (EP : Zpos P = Zpos m * 30 * 281474976710656) by (subst P; lia).
  assert (Hm : Zpos m <= 9007199254740991).
  { assert (2 ^ Zdigits2 (Zpos m) <= 2 ^ 53) by (apply Z.pow_le_mono_r; lia).
    change (2 ^ 53) with 9007199254740992 in H. lia. }
  pose proof (Z.div_mod (Zpos P) (2 ^ n) ltac:(lia)) as DM.
  pose proof (Z.mod_pos_bound (Zpos P) (2 ^ n) ltac:(lia)) as MB.
  pose proof (Z.div_mod q' (2 ^ (- t)) ltac:(lia)) as DM'.
  pose proof (Z.mod_pos_bound q' (2 ^ (- t)) ltac:(lia)) as MB'.
  set (N := 2 ^ n) in *. set (T := 2 ^ (- t)) in *. set (A := 2 ^ (- e)) in *.
  set (q := Zpos P / N) in *. set (i := q' / T) in *.
  (* rounding up costs at most half a unit, which is below 2^-53 of P *)
  assert (UP : 9007199254740992 * (N * q') <= Zpos P * 9007199254740993).
  { destruct Cq as [-> | [-> Hb]]; [nia |].
    assert (Half : 2 ^ (n - 1) <= Zpos P mod N)
      by (apply testbit_half; [lia | lia | exact Hb]).
    assert (EN : N = 2 * 2 ^ (n - 1))
      by (subst N; rewrite <- Z.pow_succ_r by lia; f_equal; lia).
    assert (Big : 4503599627370496 * N <= Zpos P).
    { destruct (Z.eq_dec t (-1074)) as [Et | Nt].
      - exfalso. assert (n - 1 < 49) by (subst n ex; lia).
        assert (Z.testbit (Zpos P) (n - 1) = false).
        { replace (Zpos P) with (Zpos m * 15 * 2 ^ 49) by (subst P; lia).
          apply Z.mul_pow2_bits_low. lia. }
        congruence.
      - assert (n = Zdigits2 (Zpos P) - 53)
          by (subst n t; unfold fexp, emin in *; lia).
        destruct (Zdigits2_bounds (Zpos P) ltac:(lia)) as [LP _].
        replace (Zdigits2 (Zpos P) - 1) with (52 + n) in LP by lia.
        rewrite Z.pow_add_r in LP by lia.
        change (2 ^ 52) with 4503599627370496 in LP. exact LP. }
    set (H2 := 2 ^ (n - 1)) in *. nia. }
  assert (LO : Zpos P < N * (q' + 1)) by (destruct Cq as [-> | [-> _]]; nia).
  assert (I0 : 0 <= i).
  { subst i. apply Z.div_pos; [| lia]. destruct Cq as [-> | [-> _]];
      subst q; [apply Z.div_pos | assert (0 <= Zpos P / N) by (apply Z.div_pos; lia)]; lia. }
  assert (F1 : 30 * Zpos m < (i + 1) * A) by nia.
  assert (F2 : i * 9007199254740992 * A <= 30 * Zpos m * 9007199254740993).
  { assert (TI : T * i <= q') by lia.
    assert (9007199254740992 * (N * (T * i)) <= Zpos P * 9007199254740993) by nia.
    nia. }
  split; [exact F1 |]. split; [exact F2 |]. split; [exact I0 |].
  nia.
Qed.

Set Implicit Arguments.
Local Close Scope Z_scope.

Lemma runEffects_fresh (n : nat) (w : str) :
  w <> [] -> runEffects n (freshRound w) = (freshRound w, []).
Proof.
  intros Hw. apply runEffects_go_on; try assumption; try reflexivity.
  apply hasWon_false. destruct w as [|c w]; [congruence |].
  exists c. simpl. auto.
Qed.

(** What [Math_random_returns] says of a double. *)
Lemma Math_random_returns_cases (r : double) :
  Math_random_returns r = true ->
  (exists s, r = S754_zero s)
  \/ (exists m e, r = S754_finite false m e
                  /\ bounded 53 1024 m e = true /\ (e <= -53)%Z).
Proof.
  unfold Math_random_returns. intros H.
  apply andb_true_iff in H. destruct H as [H Hlt].
  apply andb_true_iff in H. destruct H as [Hv Hle].
  destruct r as [s | s | | s m e].
  - left. exists s. reflexivity.
  - destruct s; discriminate.
  - discriminate.
  - right. destruct s; [discriminate |]. exists m, e.
    split; [reflexivity |]. split; [exact Hv |].
    unfold SFltb, SFcompare in Hlt.
    destruct (Z.compare_spec e (-52)) as [E | E | E]; try discriminate;
      [| lia].
    exfalso. subst e.
    destruct (Pos.compare_cont Eq m 4503599627370496) eqn:C;
      try discriminate.
    assert (C' : (Zpos m < 4503599627370496)%Z)
      by (apply Pos2Z.pos_lt_pos; exact C).
    clear C Hlt Hle.
    simpl in Hv. unfold bounded, canonical_mantissa in Hv.
    apply andb_true_iff in Hv. destruct Hv as [Hc _].
    apply Z.eqb_eq in Hc. unfold fexp, emin in Hc.
    change (Zpos (digits2_pos m)) with (Zdigits2 (Zpos m)) in Hc.
    assert (D : (Zdigits2 (Zpos m) <= 52)%Z)
      by (apply Zdigits2_le;
          [lia | change (2 ^ 52)%Z with 4503599627370496%Z; lia]).
    lia.
Qed.

(** For every value of [Math.random()] the index is one of the array,
    and it is the index of the slice of width 1/30 the value lies in, up
    to one rounding of the product. *)
Lemma randomIndex_spec (r : double) :
  Math_random_returns r = true ->
  exists i : Z,
    randomIndex r = Some i
    /\ (0 <= i < 30)%Z
    /\ (i # 30) <= double_value r * (1 + (1 # 9007199254740992))
    /\ double_value r < (i + 1 # 30).
Proof.
  intros H.
  destruct (@Math_random_returns_cases r H)
    as [(s & ->) | (m & e & -> & Hb & He)].
  - exists 0%Z. split; [reflexivity |]. split; [lia |].
    split; [unfold Qle | unfold Qlt]; simpl; lia.
  - destruct (product_floor m e Hb He) as (i & Ei & F1 & F2 & Hi).
    exists i. split; [exact Ei |]. split; [exact Hi |].
    destruct e as [| k | k]; try lia.
    cbn [double_value cond_Zopp].
    change (- Z.neg k)%Z with (Z.pos k) in *.
    rewrite <- Pos2Z.inj_pow in F1, F2.
    split.
    + unfold Qle, Qmult, Qplus. cbn [Qnum Qden].
      rewrite !Pos2Z.inj_mul. lia.
    + unfold Qlt. cbn [Qnum Qden]. lia.
Qed.

Lemma startNewRound_state (r : double) (s0 : State) :
  Math_random_returns r = true ->
  startNewRound r s0
    = (freshRound (Array_get WORDS (randomIndex r)), [])
  /\ In (Array_get WORDS (randomIndex r)) WORDS.
Proof.
  intros Hr.
  destruct (@randomIndex_spec r Hr) as (i & Ei & Hi & _).
  assert (I : In (Array_get WORDS (randomIndex r)) WORDS).
  { rewrite Ei. unfold Array_get.
    replace (i <? 0)%Z with false by (symmetry; apply Z.ltb_ge; lia).
    apply nth_In. change (List.length WORDS) with 30%nat. lia. }
  split; [| exact I].
  rewrite startNewRound_eq. apply runEffects_fresh, WORDS_nonempty, I.
Qed.

(** C4: [startNewRound] always yields a state, with no alert; its word
    is one of [WORDS], no letter is guessed, no attempt is wrong, and
    the phase is in progress.  The word drawn follows the value [v] of
    [Math.random()] slice by slice: the [i]-th word is drawn only for
    [i/30 <= v (1 + 2^-53)] and [v < (i+1)/30], and always for
    [i/30 <= v] and [v (1 + 2^-53) < (i+1)/30].  So the 30 words have
    slices of width 1/30, up to the one rounding of the product at
    their lower ends: numbers drawn uniformly give words drawn
    uniformly, to that precision. *)
Theorem startNewRound_fresh (r : double) (s0 : State) :
  Math_random_returns r = true ->
  let s := fst (startNewRound r s0) in
  let v := double_value r in
  snd (startNewRound r s0) = []
  /\ In (word s) WORDS
  /\ guessedLetters s = []
  /\ attempts s = 0%N
  /\ gameStatus s = Playing
  /\ forall i : nat, (i < List.length WORDS)%nat ->
       (word s = nth i WORDS [] ->
        (Z.of_nat i # 30) <= v * (1 + (1 # 9007199254740992))
        /\ v < (Z.of_nat i + 1 # 30))
       /\ ((Z.of_nat i # 30) <= v ->
           v * (1 + (1 # 9007199254740992)) < (Z.of_nat i + 1 # 30) ->
           word s = nth i WORDS []).
Proof.
  intros Hr s v. subst s v.
  destruct (@startNewRound_state r s0 Hr) as [E I]. rewrite E.
  cbn [fst snd freshRound word guessedLetters attempts gameStatus].
  repeat (split; [solve [reflexivity | exact I] |]).
  destruct (@randomIndex_spec r Hr) as (j & Ej & Hj & Lo & Hi).
  assert (W : Array_get WORDS (randomIndex r) = nth (Z.to_nat j) WORDS []).
  { rewrite Ej. unfold Array_get.
    replace (j <? 0)%Z with false by (symmetry; apply Z.ltb_ge; lia).
    reflexivity. }
  rewrite W. intros i Hlen. change (List.length WORDS) with 30%nat in Hlen.
  split.
  - intros En. apply (proj1 (NoDup_nth WORDS []) WORDS_NoDup) in En;
      [| change (List.length WORDS) with 30%nat; lia
       | change (List.length WORDS) with 30%nat; lia].
    replace (Z.of_nat i) with j by lia. split; assumption.
  - intros Li Ui.
    assert (A : (j # 30) < (Z.of_nat i + 1 # 30))
      by (eapply Qle_lt_trans; eassumption).
    assert (B : (Z.of_nat i # 30) < (j + 1 # 30))
      by (eapply Qle_lt_trans; eassumption).
    unfold Qlt in A, B. cbn [Qnum Qden] in A, B.
    f_equal. lia.
Qed.

Lemma startNewRound_fresh_witness :
  let s := fst (startNewRound double_28_30 initialState) in
  In (word s) WORDS /\ gameStatus s = Playing.
Proof.
  intros s.
  assert (Hr : Math_random_returns double_28_30 = true) by reflexivity.
  pose proof (@startNewRound_fresh double_28_30 initialState Hr) as T.
  split; [exact (proj1 (proj2 T)) | exact (proj1 (proj2 (proj2 (proj2 (proj2 T)))))].
Defined.

(** The rounding of the product is visible: this value of
    [Math.random()] lies below 17/30, its product with 30 rounds to 17,
    and the word drawn is the one of index 17. *)
Remark rounded_product_reaches_next_word :
  let r := S754_finite false 5104079577686562 (-53) in
  Math_random_returns r = true
  /\ double_value r < (17 # 30)
  /\ randomIndex r = Some 17%Z.
Proof.
  split; [reflexivity |]. split; [| reflexivity].
  unfold Qlt. simpl. lia.
Qed.

(* ================================================================== *)
(** ** Invariants of the reachable states *)

Lemma reachable_word (s : State) : reachable s -> In (word s) WORDS.
Proof.
  induction 1 as [r s0 Hr | letter s R IH].
  - destruct (@startNewRound_state r s0 Hr) as [E I]. rewrite E. exact I.
  - destruct (submitGuess_cases letter s) as [H | [Hp Hn]].
    + rewrite submitGuess_ignored by assumption. exact IH.
    + rewrite submitGuess_accepted by assumption.
      destruct (runEffects_word renderPasses (guessed letter s)) as (-> & _).
      exact IH.
Qed.

Lemma reachable_settled (s : State) : reachable s -> settled s.
Proof.
  induction 1 as [r s0 Hr | letter s R IH].
  - rewrite startNewRound_eq. apply runEffects_settled.
  - destruct (submitGuess_cases letter s) as [H | [Hp Hn]].
    + rewrite submitGuess_ignored by assumption. exact IH.
    + rewrite submitGuess_accepted by assumption. apply runEffects_settled.
Qed.

Lemma reachable_play (letters : list str) (s : State) :
  reachable s -> reachable (fst (play letters s)).
Proof.
  revert s; induction letters as [|l ls IH]; intros s R; [exact R |].
  cbn [play]. pose proof (IH _ (reach_guess l R)) as R'.
  destruct (submitGuess l s) as [s1 al1]. cbn [fst] in R'.
  destruct (play ls s1) as [s2 al2]. exact R'.
Qed.

(** While a settled round is in progress, some letter of the word is
    still hidden and fewer than six attempts were wrong. *)
Lemma settled_playing (s : State) :
  settled s -> gameStatus s = Playing -> word s <> [] ->
  hasWon s = false /\ (attempts s < MAX_ATTEMPTS)%N.
Proof.
  unfold settled. intros St Hp Hw.
  destruct (runEffects_cases s) as [[H | H] | (_ & _ & [Hh | (Hh & [Ha | Ha])])];
    try contradiction.
  - rewrite statusEffect_won in St by assumption. discriminate St.
  - rewrite statusEffect_lost in St by assumption. discriminate St.
  - auto.
Qed.

(** A wrong guess reveals nothing. *)
Lemma hasWon_guessed_wrong (letter : str) (s : State) :
  hasWon s = false -> String_includes (word s) letter = false ->
  hasWon (guessed letter s) = false.
Proof.
  intros Hh Hi. apply hasWon_false in Hh. destruct Hh as (c & Hc & Nc).
  apply hasWon_false. exists c. split; [exact Hc |].
  cbn [guessed guessedLetters]. rewrite in_app_iff. intros [G | [E | []]].
  - contradiction.
  - subst letter. apply String_includes_char in Hc. congruence.
Qed.

Lemma reachable_attempts (s : State) :
  reachable s ->
  (attempts s <= MAX_ATTEMPTS)%N
  /\ (gameStatus s <> Lost -> (attempts s < MAX_ATTEMPTS)%N).
Proof.
  induction 1 as [r s0 Hr | letter s R IH].
  - destruct (@startNewRound_state r s0 Hr) as [E _]. rewrite E.
    simpl. unfold MAX_ATTEMPTS. lia.
  - destruct (submitGuess_cases letter s) as [H | [Hp Hn]].
    + rewrite submitGuess_ignored by assumption. exact IH.
    + rewrite submitGuess_accepted by assumption.
      pose proof (WORDS_nonempty (reachable_word R)) as Hw.
      destruct (settled_playing (reachable_settled R) Hp Hw) as [Hh Ha].
      assert (Hw' : word (guessed letter s) <> []) by exact Hw.
      assert (Hp' : gameStatus (guessed letter s) = Playing) by exact Hp.
      unfold renderPasses.
      destruct (String_includes (word s) letter) eqn:Hi.
      * assert (Ea : attempts (guessed letter s) = attempts s)
          by (cbn [guessed attempts]; rewrite Hi; reflexivity).
        destruct (runEffects_cases (guessed letter s))
          as [[H | H] | (_ & _ & [Hh' | (Hh' & [Ha' | Ha'])])];
          try contradiction.
        -- rewrite runEffects_won by assumption. simpl. rewrite Hi. lia.
        -- lia.
        -- rewrite runEffects_go_on by assumption. simpl. rewrite Hi. lia.
      * assert (Ea : attempts (guessed letter s) = (attempts s + 1)%N)
          by (cbn [guessed attempts]; rewrite Hi; reflexivity).
        pose proof (hasWon_guessed_wrong letter s Hh Hi) as Hh'.
        destruct (N.le_gt_cases MAX_ATTEMPTS (attempts (guessed letter s)))
          as [Ha' | Ha'].
        -- rewrite runEffects_lost by assumption.
           cbn [fst withStatus attempts gameStatus].
           unfold MAX_ATTEMPTS in *. split; [lia | congruence].
        -- rewrite runEffects_go_on by assumption. cbn [fst].
           unfold MAX_ATTEMPTS in *. lia.
Qed.

(** C2: in every reachable state the wrong attempts are at most 6, and
    with 6 of them the phase is Lost; from a Lost state no guess changes
    anything; and a new round is in progress again. *)
Theorem attempts_bounded_lost_final :
  (forall s, reachable s ->
     (attempts s <= MAX_ATTEMPTS)%N
     /\ ((MAX_ATTEMPTS <= attempts s)%N -> gameStatus s = Lost))
  /\ (forall s letter, gameStatus s = Lost ->
        submitGuess letter s = (s, [])
        /\ gameStatus (fst (submitGuess letter s)) = Lost)
  /\ (forall s letters, gameStatus s = Lost -> fst (play letters s) = s)
  /\ (forall s r, Math_random_returns r = true ->
        gameStatus (fst (startNewRound r s)) = Playing).
Proof.
  split; [| split; [| split]].
  - intros s R. destruct (reachable_attempts R) as [A B].
    split; [exact A |]. intros Hge.
    destruct (gameStatus s) eqn:E; [| | reflexivity];
      (assert (L : (attempts s < MAX_ATTEMPTS)%N) by (apply B; discriminate));
      lia.
  - intros s letter HL.
    assert (E : submitGuess letter s = (s, []))
      by (apply submitGuess_ignored; left; congruence).
    rewrite E. auto.
  - intros s letters HL. induction letters as [|l ls IH]; [reflexivity |].
    cbn [play]. rewrite submitGuess_ignored by (left; congruence).
    destruct (play ls s) as [s2 al2]. exact IH.
  - intros s r Hr. destruct (@startNewRound_state r s Hr) as [E _].
    rewrite E. reflexivity.
Qed.

Lemma attempts_bounded_lost_final_witness :
  let s := fst (play (List.map lit ["Q"; "W"; "E"; "R"; "T"; "Y"]%string)
                     (fst (startNewRound double_6_30 initialState))) in
  (attempts s <= MAX_ATTEMPTS)%N
  /\ ((MAX_ATTEMPTS <= attempts s)%N -> gameStatus s = Lost).
Proof.
  intros s. apply (proj1 attempts_bounded_lost_final).
  assert (Hr : Math_random_returns double_6_30 = true) by reflexivity.
  subst s. apply reachable_play.
  apply reach_new; assumption.
Defined.

(* ================================================================== *)
(** ** Guessed letters and the count of wrong attempts *)

Lemma wrongLetters_In (s : State) (l : str) :
  In l (wrongLetters s) <-> In l (guessedLetters s) /\ ~ occurs l (word s).
Proof.
  unfold wrongLetters. rewrite filter_In, <- String_includes_spec.
  destruct (String_includes (word s) l); simpl; intuition congruence.
Qed.

Lemma correctLetters_In (s : State) (l : str) :
  In l (correctLetters s) <-> In l (guessedLetters s) /\ occurs l (word s).
Proof.
  unfold correctLetters. rewrite filter_In, <- String_includes_spec. tauto.
Qed.

Lemma wrongLetters_guessed (letter : str) (s : State) :
  wrongLetters (guessed letter s)
  = wrongLetters s ++
    (if String_includes (word s) letter then [] else [letter]).
Proof.
  unfold wrongLetters. cbn [guessed word guessedLetters].
  rewrite filter_app. cbn [filter].
  destruct (String_includes (word s) letter); reflexivity.
Qed.

Lemma wrongLetters_runEffects (n : nat) (s : State) :
  wrongLetters (fst (runEffects n s)) = wrongLetters s.
Proof.
  unfold wrongLetters.
  destruct (runEffects_word n s) as (-> & -> & _). reflexivity.
Qed.

(** One key press keeps the guesses distinct and the counter equal to
    the number of wrong letters. *)
Lemma submitGuess_counts (letter : str) (s : State) :
  NoDup (guessedLetters s) ->
  attempts s = N.of_nat (List.length (wrongLetters s)) ->
  NoDup (guessedLetters (fst (submitGuess letter s)))
  /\ attempts (fst (submitGuess letter s))
     = N.of_nat (List.length (wrongLetters (fst (submitGuess letter s)))).
Proof.
  intros ND EA.
  destruct (submitGuess_cases letter s) as [H | [Hp Hn]].
  - rewrite submitGuess_ignored by assumption. auto.
  - rewrite submitGuess_accepted by assumption.
    rewrite wrongLetters_runEffects, wrongLetters_guessed.
    destruct (runEffects_word renderPasses (guessed letter s)) as (_ & -> & ->).
    cbn [guessed guessedLetters attempts]. split.
    + apply NoDup_app; [exact ND | repeat constructor; intros [] |].
      intros x Hx [<- | []]. contradiction.
    + rewrite length_app.
      destruct (String_includes (word s) letter); simpl; lia.
Qed.

(** C9: in every state reached from a fresh round by key presses, the
    guessed letters are pairwise distinct and the wrong attempts are
    exactly the number of guessed letters that do not occur in the
    word. *)
Theorem guesses_distinct_attempts_counted (s : State) :
  reachable s ->
  NoDup (guessedLetters s)
  /\ attempts s = N.of_nat (List.length (wrongLetters s))
  /\ (forall l, In l (wrongLetters s) <->
                In l (guessedLetters s) /\ ~ occurs l (word s))
  /\ NoDup (wrongLetters s).
Proof.
  intros R.
  assert (I : NoDup (guessedLetters s)
              /\ attempts s = N.of_nat (List.length (wrongLetters s))).
  { induction R as [r s0 Hr | letter s R IH].
    - destruct (@startNewRound_state r s0 Hr) as [E _]. rewrite E.
      simpl. split; [constructor | reflexivity].
    - destruct IH as [ND EA]. apply submitGuess_counts; assumption. }
  destruct I as [ND EA].
  split; [exact ND |]. split; [exact EA |].
  split; [apply wrongLetters_In |].
  unfold wrongLetters. apply NoDup_filter, ND.
Qed.

Lemma guesses_distinct_attempts_counted_witness :
  let s := fst (play [lit "G"; lit "X"; lit "G"; lit "Q"]
                     (fst (startNewRound double_6_30 initialState))) in
  NoDup (guessedLetters s)
  /\ attempts s = N.of_nat (List.length (wrongLetters s)).
Proof.
  intros s.
  assert (Hr : Math_random_returns double_6_30 = true) by reflexivity.
  assert (R : reachable s)
    by (apply reachable_play, reach_new; assumption).
  pose proof (guesses_distinct_attempts_counted R) as T.
  split; [exact (proj1 T) | exact (proj1 (proj2 T))].
Defined.

(* ================================================================== *)
(** ** Winning *)

Lemma play_cons_fst (l : str) (ls : list str) (s : State) :
  fst (play (l :: ls) s) = fst (play ls (fst (submitGuess l s))).
Proof.
  cbn [play]. destruct (submitGuess l s) as [s1 al1]. cbn [fst].
  destruct (play ls s1); reflexivity.
Qed.

(** A round in which only letters of the word are pressed: it is won,
    or still in progress with every pressed letter among the guesses. *)
Lemma play_letters_of_word (ls : list str) :
  forall s : State,
    word s <> [] ->
    gameStatus s = Won
    \/ (gameStatus s = Playing /\ hasWon s = false
        /\ (attempts s < MAX_ATTEMPTS)%N) ->
    (forall l, In l ls -> exists c, l = [c] /\ In c (word s)) ->
    let s' := fst (play ls s) in
    word s' = word s
    /\ incl (guessedLetters s) (guessedLetters s')
    /\ (gameStatus s = Won -> gameStatus s' = Won)
    /\ (gameStatus s' = Won
        \/ (gameStatus s' = Playing /\ hasWon s' = false
            /\ forall l, In l ls -> In l (guessedLetters s'))).
Proof.
  induction ls as [|l ls IH]; intros s Hw St Hls.
  - cbn [play fst]. split; [reflexivity |]. split; [apply incl_refl |].
    split; [auto |]. destruct St as [W | (P & H & _)]; [auto |].
    right. split; [exact P |]. split; [exact H |]. intros l [].
  - intros s'. subst s'. rewrite play_cons_fst.
    set (s1 := fst (submitGuess l s)).
    assert (S1 : word s1 = word s
                 /\ incl (guessedLetters s) (guessedLetters s1)
                 /\ (gameStatus s = Won -> gameStatus s1 = Won)
                 /\ (gameStatus s1 = Won
                     \/ (gameStatus s1 = Playing /\ hasWon s1 = false
                         /\ (attempts s1 < MAX_ATTEMPTS)%N
                         /\ In l (guessedLetters s1)))).
    { subst s1. destruct (submitGuess_cases l s) as [H | [Hp Hn]].
      - rewrite submitGuess_ignored by assumption. cbn [fst].
        split; [reflexivity |]. split; [apply incl_refl |]. split; [auto |].
        destruct St as [W | (P & Hh & Ha)]; [auto |].
        right. destruct H as [H | H]; [congruence | auto].
      - rewrite submitGuess_accepted by assumption.
        destruct St as [W | (_ & Hh & Ha)]; [congruence |].
        destruct (Hls l (or_introl eq_refl)) as (c & -> & Hc).
        pose proof (proj2 (String_includes_char (word s) c) Hc) as Hi.
        assert (Hw' : word (guessed [c] s) <> []) by exact Hw.
        assert (Hp' : gameStatus (guessed [c] s) = Playing) by exact Hp.
        assert (Ea : (attempts (guessed [c] s) < MAX_ATTEMPTS)%N)
          by (cbn [guessed attempts]; rewrite Hi; exact Ha).
        assert (Hin : In [c] (guessedLetters (guessed [c] s)))
          by (cbn [guessed guessedLetters]; apply in_or_app; simpl; auto).
        assert (Hinc : incl (guessedLetters s) (guessedLetters (guessed [c] s)))
          by (cbn [guessed guessedLetters]; apply incl_appl, incl_refl).
        unfold renderPasses.
        destruct (hasWon (guessed [c] s)) eqn:Hh'.
        + rewrite runEffects_won by assumption. cbn [fst withStatus word
            guessedLetters gameStatus].
          split; [reflexivity |]. split; [exact Hinc |]. auto.
        + rewrite runEffects_go_on by assumption. cbn [fst].
          split; [reflexivity |]. split; [exact Hinc |].
          split; [congruence |]. right. auto. }
    destruct S1 as (Ew1 & Inc1 & W1 & St1).
    assert (Hw1 : word s1 <> []) by congruence.
    assert (St1' : gameStatus s1 = Won
                   \/ (gameStatus s1 = Playing /\ hasWon s1 = false
                       /\ (attempts s1 < MAX_ATTEMPTS)%N))
      by (destruct St1 as [? | (? & ? & ? & ?)]; auto).
    assert (Hls1 : forall l', In l' ls -> exists c, l' = [c] /\ In c (word s1))
      by (intros l' Hl'; rewrite Ew1; apply Hls; right; exact Hl').
    destruct (IH s1 Hw1 St1' Hls1) as (Ew & Inc & W & Fin).
    split; [congruence |].
    split; [eapply incl_tran; eassumption |].
    split; [auto |].
    destruct Fin as [F | (P & Hh & All)]; [auto |].
    right. split; [exact P |]. split; [exact Hh |].
    intros l' [<- | Hl']; [| apply All, Hl'].
    destruct St1 as [W1' | (_ & _ & _ & Hin)].
    + rewrite (W W1') in P. discriminate P.
    + apply Inc, Hin.
Qed.

(** C7: from a round in progress (fewer than 6 wrong attempts, some
    letter of the word still hidden), pressing letters of the word, in
    any order and with repetitions, until each of its letters has been
    pressed, ends in Won.  The letters are pressed in the form they have
    in the word, which is the upper-case one throughout [WORDS]. *)
Theorem guessing_every_letter_wins (s : State) (ls : list str) :
  gameStatus s = Playing ->
  (attempts s < MAX_ATTEMPTS)%N ->
  (exists c, In c (word s) /\ ~ In [c] (guessedLetters s)) ->
  (forall l, In l ls -> exists c, l = [c] /\ In c (word s)) ->
  (forall c, In c (word s) -> In [c] ls) ->
  gameStatus (fst (play ls s)) = Won.
Proof.
  intros Hp Ha Hid Hls Hall.
  assert (Hh : hasWon s = false) by (apply hasWon_false, Hid).
  assert (Hw : word s <> [])
    by (destruct Hid as (c & Hc & _); destruct (word s); [destruct Hc | discriminate]).
  destruct (play_letters_of_word ls s Hw (or_intror (conj Hp (conj Hh Ha))) Hls)
    as (Ew & _ & _ & [W | (_ & Hh' & All)]); [exact W |].
  exfalso. apply hasWon_false in Hh'. destruct Hh' as (c & Hc & Nc).
  apply Nc, All, Hall. rewrite <- Ew. exact Hc.
Qed.

Lemma guessing_every_letter_wins_witness :
  gameStatus
    (fst (play [lit "A"; lit "E"; lit "Q"; lit "T"; lit "A"; lit "U"]
               (mkState (lit "ATAQUE") [lit "X"; lit "A"; lit "Z"] 2 Playing)))
  = Won.
Proof.
  apply guessing_every_letter_wins.
  - reflexivity.
  - reflexivity.
  - exists 84%N. simpl. split; [auto 10 |].
    intros [E | [E | [E | []]]]; discriminate E.
  - simpl. intros l [<- | [<- | [<- | [<- | [<- | [<- | []]]]]]];
      eexists; (split; [reflexivity | simpl; auto 10]).
  - simpl. intros c [<- | [<- | [<- | [<- | [<- | [<- | []]]]]]]; auto 10.
Defined.

(* ================================================================== *)
(** ** A word the keyboard cannot spell *)

Lemma E_acute_not_on_keyboard : ~ In [E_acute] ALPHABET.
Proof.
  apply Array_includes_notIn. vm_compute. reflexivity.
Qed.

Lemma play_PELE_invariant (ls : list str) :
  forall s : State,
    In E_acute (word s) ->
    ~ In [E_acute] (guessedLetters s) ->
    gameStatus s <> Won ->
    (forall l, In l ls -> In l ALPHABET) ->
    gameStatus (fst (play ls s)) <> Won.
Proof.
  induction ls as [|l ls IH]; intros s Hc Hn Hs Hls; [exact Hs |].
  rewrite play_cons_fst.
  assert (Hl : l <> [E_acute]).
  { intros ->. apply E_acute_not_on_keyboard, Hls. left. reflexivity. }
  assert (Hls' : forall l', In l' ls -> In l' ALPHABET)
    by (intros l' Hl'; apply Hls; right; exact Hl').
  destruct (submitGuess_cases l s) as [H | [Hp Hg]].
  - rewrite submitGuess_ignored by assumption. apply IH; assumption.
  - rewrite submitGuess_accepted by assumption.
    assert (Hn' : ~ In [E_acute] (guessedLetters (guessed l s))).
    { cbn [guessed guessedLetters]. rewrite in_app_iff.
      intros [G | [E | []]]; [contradiction | congruence]. }
    assert (Hh : hasWon (guessed l s) = false)
      by (apply hasWon_false; exists E_acute; split; [exact Hc | exact Hn']).
    destruct (runEffects_word renderPasses (guessed l s)) as (Ew & Eg & _).
    apply IH; try assumption.
    + rewrite Ew. exact Hc.
    + rewrite Eg. exact Hn'.
    + unfold renderPasses.
      destruct (runEffects_cases (guessed l s))
        as [[H | H] | (Hw & Hp' & [Hh' | (_ & [Ha | Ha])])].
      * rewrite runEffects_idle by (left; exact H). simpl. congruence.
      * rewrite runEffects_idle by (right; exact H). simpl. congruence.
      * congruence.
      * rewrite runEffects_lost by assumption. simpl. discriminate.
      * rewrite runEffects_go_on by assumption. simpl. congruence.
Qed.

(** C10: the word PEL+E-acute of [WORDS] has a letter that is on no key
    of the keyboard; when a round has that word, no sequence of key
    presses makes the phase Won, so a round that ends ends Lost, as the
    one that presses every key in order does. *)
Theorem PELE_is_never_won (ls : list str) :
  (forall l, In l ls -> In l ALPHABET) ->
  let w := lit "PEL" ++ [E_acute] in
  In w WORDS
  /\ (In E_acute w /\ ~ In [E_acute] ALPHABET)
  /\ (forall s0, fst (startNewRound double_28_30 s0) = freshRound w)
  /\ gameStatus (fst (play ls (freshRound w))) <> Won
  /\ (gameStatus (fst (play ls (freshRound w))) <> Playing ->
      gameStatus (fst (play ls (freshRound w))) = Lost)
  /\ gameStatus (fst (play ALPHABET (freshRound w))) = Lost.
Proof.
  intros Hls w.
  assert (NW : gameStatus (fst (play ls (freshRound w))) <> Won).
  { apply play_PELE_invariant; try assumption.
    - simpl. auto.
    - simpl. tauto.
    - simpl. discriminate. }
  split; [simpl; auto 40 |].
  split; [split; [simpl; auto | apply E_acute_not_on_keyboard] |].
  split; [intros s0; vm_compute; reflexivity |].
  split; [exact NW |].
  split; [| vm_compute; reflexivity].
  destruct (gameStatus (fst (play ls (freshRound w)))); congruence.
Qed.

Lemma PELE_is_never_won_witness :
  gameStatus
    (fst (play [lit "P"; lit "E"; lit "L"; lit "E"]
               (freshRound (lit "PEL" ++ [E_acute])))) <> Won.
Proof.
  refine (proj1 (proj2 (proj2 (proj2
            (PELE_is_never_won [lit "P"; lit "E"; lit "L"; lit "E"] _))))).
  simpl. intros l [<- | [<- | [<- | [<- | []]]]]; vm_compute; auto 30.
Defined.

(* ================================================================== *)
(** ** The derived views *)

Section Join.

Variable sep : char.

Lemma join_units_cons (c : char) (cs : list char) :
  cs <> [] ->
  join [sep] (split_chars (c :: cs)) = c :: sep :: join [sep] (split_chars cs).
Proof. destruct cs; [congruence | reflexivity]. Qed.

Lemma join_units_length (cs : list char) :
  List.length (join [sep] (split_chars cs)) = (2 * List.length cs - 1)%nat.
Proof.
  induction cs as [|c cs IH]; [reflexivity |].
  destruct cs as [|d cs]; [reflexivity |].
  rewrite join_units_cons by discriminate.
  cbn [List.length] in *. rewrite IH. lia.
Qed.

Lemma join_units_even (cs : list char) :
  forall i c, nth_error cs i = Some c ->
              nth_error (join [sep] (split_chars cs)) (2 * i) = Some c.
Proof.
  induction cs as [|d cs IH]; intros i c H.
  - destruct i; discriminate H.
  - destruct i as [|i].
    + simpl in H. injection H as ->. destruct cs; reflexivity.
    + simpl in H. destruct cs as [|e cs]; [destruct i; discriminate H |].
      rewrite join_units_cons by discriminate.
      replace (2 * S i)%nat with (S (S (2 * i))) by lia.
      cbn [nth_error]. apply IH, H.
Qed.

Lemma join_units_odd (cs : list char) :
  forall i, (S i < List.length cs)%nat ->
            nth_error (join [sep] (split_chars cs)) (2 * i + 1) = Some sep.
Proof.
  induction cs as [|d cs IH]; intros i H; [simpl in H; lia |].
  destruct cs as [|e cs]; [simpl in H; lia |].
  rewrite join_units_cons by discriminate.
  destruct i as [|i]; [reflexivity |].
  replace (2 * S i + 1)%nat with (S (S (2 * i + 1))) by lia.
  cbn [nth_error]. apply IH. simpl in *. lia.
Qed.

End Join.

Lemma displayWord_shown (s : State) :
  displayWord s = join [32%N] (split_chars (List.map (shown s) (word s))).
Proof.
  unfold displayWord, split_chars. rewrite !map_map. f_equal.
  apply map_ext. intros c. unfold shown.
  destruct (Array_includes (guessedLetters s) [c]); reflexivity.
Qed.

(** C6: the display is computed from the state alone.  It has the
    letters of the word at the even positions, each shown as itself
    when guessed and as an underscore when not, with single spaces
    between them; the guessed letters are split into those that occur
    in the word and those that do not.  On the word GOL: after G the
    display is "G _ _"; after G, O it is "G O _"; after G, O, X, L the
    phase is Won, the display "G O L", and one attempt is wrong. *)
Theorem renderDisplay_view (s : State) :
  (forall i c, nth_error (word s) i = Some c ->
     (In [c] (guessedLetters s) ->
      nth_error (displayWord s) (2 * i) = Some c)
     /\ (~ In [c] (guessedLetters s) ->
         nth_error (displayWord s) (2 * i) = Some 95%N))
  /\ (forall i, (S i < List.length (word s))%nat ->
        nth_error (displayWord s) (2 * i + 1) = Some 32%N)
  /\ List.length (displayWord s) = (2 * List.length (word s) - 1)%nat
  /\ partition (String_includes (word s)) (guessedLetters s)
     = (correctLetters s, wrongLetters s)
  /\ (forall l, In l (correctLetters s) <->
                In l (guessedLetters s) /\ occurs l (word s))
  /\ (forall l, In l (wrongLetters s) <->
                In l (guessedLetters s) /\ ~ occurs l (word s))
  /\ Permutation (correctLetters s ++ wrongLetters s) (guessedLetters s)
  /\ (let gol := freshRound (lit "GOL") in
      displayWord (fst (play [lit "G"] gol)) = lit "G _ _"
      /\ displayWord (fst (play [lit "G"; lit "O"] gol)) = lit "G O _"
      /\ displayWord (fst (play [lit "G"; lit "O"; lit "X"; lit "L"] gol))
         = lit "G O L"
      /\ gameStatus (fst (play [lit "G"; lit "O"; lit "X"; lit "L"] gol)) = Won
      /\ attempts (fst (play [lit "G"; lit "O"; lit "X"; lit "L"] gol)) = 1%N).
Proof.
  split; [| split; [| split; [| split; [| split; [| split; [| split]]]]]].
  - intros i c H.
    assert (E : nth_error (displayWord s) (2 * i) = Some (shown s c))
      by (rewrite displayWord_shown; apply join_units_even;
          rewrite nth_error_map, H; reflexivity).
    rewrite E. unfold shown.
    split; intros G.
    + apply Array_includes_In in G. rewrite G. reflexivity.
    + apply Array_includes_notIn in G. rewrite G. reflexivity.
  - intros i H. rewrite displayWord_shown. apply join_units_odd.
    rewrite length_map. exact H.
  - rewrite displayWord_shown, join_units_length, length_map. reflexivity.
  - apply partition_as_filter.
  - apply correctLetters_In.
  - apply wrongLetters_In.
  - unfold correctLetters, wrongLetters.
    induction (guessedLetters s) as [|l g IH]; [constructor |].
    cbn [filter]. destruct (String_includes (word s) l); cbn [negb app].
    + constructor. exact IH.
    + apply Permutation_sym, Permutation_cons_app, Permutation_sym, IH.
  - vm_compute. repeat split.
Qed.

Lemma renderDisplay_view_witness :
  let s := mkState (lit "GOL") [lit "X"; lit "O"] 1 Playing in
  nth_error (displayWord s) 2 = Some 79%N
  /\ nth_error (displayWord s) 4 = Some 95%N.
Proof.
  intros s.
  pose proof (proj1 (renderDisplay_view s)) as T.
  split.
  - apply (proj1 (T 1%nat 79%N eq_refl)). simpl. auto.
  - apply (proj2 (T 2%nat 76%N eq_refl)). simpl.
    intros [E | [E | []]]; discriminate E.
Defined.

(** [handleGuess] compares code units: a lower-case letter is not the
    upper-case letter of the word, and counts as a wrong attempt. *)
Remark lower_case_is_another_letter :
  fst (submitGuess (lit "g") (freshRound (lit "GOL")))
  = mkState (lit "GOL") [lit "g"] 1 Playing.
Proof. reflexivity. Qed.

(** On the initial state, whose word is the empty string, the status
    effect returns at its [!word] guard: a guess is recorded against the
    empty word and the phase stays in progress. *)
Remark guess_before_first_round :
  fst (submitGuess (lit "A") initialState) = mkState [] [lit "A"] 1 Playing.
Proof. reflexivity. Qed.

(* ================================================================== *)
(** ** The keyboard *)

Lemma Keyboard_In (g : list str) (st : Status) (k : Key) :
  In k (Keyboard g st) <->
  In (keyLetter k) ALPHABET
  /\ keyGuessed k = Array_includes g (keyLetter k)
  /\ keyDisabled k
     = Array_includes g (keyLetter k) || negb (Status_eqb st Playing).
Proof.
  unfold Keyboard. rewrite in_map_iff. split.
  - intros (l & <- & Hl). simpl. auto.
  - intros (Hl & Eg & Ed). exists (keyLetter k). split; [| exact Hl].
    destruct k as [l kg kd]. simpl in *. congruence.
Qed.

Lemma handleGuess_guard (letter : str) (s : State) :
  handleGuess letter s = [] <->
  Array_includes (guessedLetters s) letter
  || negb (Status_eqb (gameStatus s) Playing) = true.
Proof.
  unfold handleGuess. rewrite (orb_comm (Array_includes _ _)).
  destruct (negb (Status_eqb (gameStatus s) Playing)
            || Array_includes (guessedLetters s) letter);
    split; congruence.
Qed.

(** X1: The keyboard always shows the 26 keys A to Z, and a key is disabled
    exactly when [handleGuess] would ignore its letter.  So a touch on a
    key does what [handleGuess] does with the letter, and a touch on an
    enabled key always adds its letter to the guessed letters. *)
Theorem Keyboard_disabled_iff_ignored (s : State) (k : Key) :
  In k (Keyboard (guessedLetters s) (gameStatus s)) ->
  List.map keyLetter (Keyboard (guessedLetters s) (gameStatus s)) = ALPHABET
  /\ (keyDisabled k = true <-> handleGuess (keyLetter k) s = [])
  /\ (keyGuessed k = true <-> In (keyLetter k) (guessedLetters s))
  /\ pressKey k s = submitGuess (keyLetter k) s
  /\ (keyDisabled k = false ->
      guessedLetters (fst (pressKey k s))
      = guessedLetters s ++ [keyLetter k]).
Proof.
  intros Hk. apply Keyboard_In in Hk. destruct Hk as (Hl & Eg & Ed).
  assert (G : keyDisabled k = true <-> handleGuess (keyLetter k) s = [])
    by (rewrite handleGuess_guard, Ed; tauto).
  split; [| split; [exact G | split; [| split]]].
  - unfold Keyboard. rewrite map_map. cbn [keyLetter]. apply map_id.
  - rewrite Eg. apply Array_includes_In.
  - unfold pressKey. destruct (keyDisabled k) eqn:D; [| reflexivity].
    unfold submitGuess. rewrite (proj1 G eq_refl). reflexivity.
  - intros D. unfold pressKey. rewrite D. rewrite D in Ed.
    symmetry in Ed. apply orb_false_iff in Ed. destruct Ed as [Ea Es].
    rewrite submitGuess_accepted.
    + destruct (runEffects_word renderPasses (guessed (keyLetter k) s))
        as (_ & -> & _). reflexivity.
    + destruct (gameStatus s); simpl in Es; congruence.
    + apply Array_includes_notIn, Ea.
Qed.

Lemma Keyboard_disabled_iff_ignored_witness :
  let s := mkState (lit "GOL") [lit "X"] 1 Playing in
  let k := mkKey (lit "O") false false in
  guessedLetters (fst (pressKey k s)) = [lit "X"; lit "O"].
Proof.
  intros s k.
  assert (Hk : In k (Keyboard (guessedLetters s) (gameStatus s)))
    by (vm_compute; auto 30).
  exact (proj2 (proj2 (proj2 (proj2
           (@Keyboard_disabled_iff_ignored s k Hk)))) eq_refl).
Defined.

Lemma String_includes_refl (w : str) : String_includes w w = true.
Proof.
  apply String_includes_spec. exists [], []. simpl.
  rewrite app_nil_r. reflexivity.
Qed.

(** X2: In the second copy of the component [isCorrect] and [isWrong] do
    not depend on the word: [isCorrect] holds for a guessed key exactly
    when the round is over, [isWrong] exactly while it is in progress.
    No key ever gets a wrong-guess style: the style the array names is
    not declared, so its entry is [undefined] for a guessed key while
    the round is in progress and [false] otherwise, and the only styles
    a key has are [keyButton], [keyButtonGuessed] and
    [keyButtonDisabled]. *)
Theorem Colours_never_mark_wrong (g : list str) (st : Status)
        (k : Colours.Key) :
  In k (Colours.Keyboard g st) ->
  (Colours.isCorrect k = true <->
     In (Colours.keyLetter k) g /\ st <> Playing)
  /\ (Colours.isWrong k = true <->
        In (Colours.keyLetter k) g /\ st = Playing)
  /\ (forall name, In (Colours.entry_style name) (Colours.keyStyle k) ->
        name = "keyButton"%string \/ name = "keyButtonGuessed"%string
        \/ name = "keyButtonDisabled"%string)
  /\ (nth_error (Colours.keyStyle k) 2 = Some Colours.entry_undefined <->
        In (Colours.keyLetter k) g /\ st = Playing)
  /\ (nth_error (Colours.keyStyle k) 2 = Some Colours.entry_false <->
        ~ (In (Colours.keyLetter k) g /\ st = Playing)).
Proof.
  unfold Colours.Keyboard. rewrite in_map_iff. intros (l & <- & _).
  cbn [Colours.isCorrect Colours.isWrong Colours.keyStyle
       Colours.keyLetter].
  rewrite String_includes_refl, andb_true_r, <- Array_includes_In.
  assert (W : Colours.styles "keyButtonWrong" = Colours.entry_undefined)
    by reflexivity.
  assert (B : Colours.styles "keyButton" = Colours.entry_style "keyButton")
    by reflexivity.
  assert (G : Colours.styles "keyButtonGuessed"
              = Colours.entry_style "keyButtonGuessed") by reflexivity.
  assert (D : Colours.styles "keyButtonDisabled"
              = Colours.entry_style "keyButtonDisabled") by reflexivity.
  rewrite W, B, G, D.
  destruct (Array_includes g l), st; cbn;
    repeat split; intros;
    repeat match goal with
           | H : _ /\ _ |- _ => destruct H
           | H : _ \/ _ |- _ => destruct H
           | H : Colours.entry_style _ = Colours.entry_style _ |- _ =>
               injection H as <-
           | H : False |- _ => destruct H
           end;
    try discriminate; try congruence; auto;
    try (intros [? ?]; congruence);
    try (exfalso; match goal with H : ~ _ |- _ => apply H end;
         split; reflexivity).
Qed.

Lemma Colours_never_mark_wrong_witness :
  let k := Colours.mkKey (lit "G") true true false true
             [ Colours.entry_style "keyButton";
               Colours.entry_style "keyButtonGuessed";
               Colours.entry_undefined;
               Colours.entry_style "keyButtonDisabled" ] in
  nth_error (Colours.keyStyle k) 2 = Some Colours.entry_undefined
  <-> In (lit "G") [lit "G"] /\ Playing = Playing.
Proof.
  intros k.
  refine (proj1 (proj2 (proj2 (proj2
            (@Colours_never_mark_wrong [lit "G"] Playing k _))))).
  vm_compute. auto 30.
Defined.

(* ================================================================== *)
(** ** The phase follows from the word, the guesses and the count *)

Lemma play_finished (ls : list str) (s : State) :
  gameStatus s <> Playing -> play ls s = (s, []).
Proof.
  intros H. induction ls as [|l ls IH]; [reflexivity |].
  cbn [play]. rewrite submitGuess_ignored by (left; exact H).
  rewrite IH. reflexivity.
Qed.

Lemma reachable_counts (s : State) :
  reachable s ->
  NoDup (guessedLetters s)
  /\ attempts s = N.of_nat (List.length (wrongLetters s)).
Proof.
  induction 1 as [r s0 Hr | letter s R IH].
  - destruct (@startNewRound_state r s0 Hr) as [E _]. rewrite E.
    simpl. split; [constructor | reflexivity].
  - destruct IH as [ND EA]. apply submitGuess_counts; assumption.
Qed.

Lemma reachable_phase (s : State) :
  reachable s ->
  match gameStatus s with
  | Playing => hasWon s = false /\ (attempts s < MAX_ATTEMPTS)%N
  | Won => hasWon s = true
  | Lost => hasWon s = false /\ attempts s = MAX_ATTEMPTS
  end.
Proof.
  intros R. pose proof (reachable_attempts R) as [Ale _].
  pose proof (WORDS_nonempty (reachable_word R)) as Hw.
  pose proof (reachable_settled R) as St.
  induction R as [r s0 Hr | letter s R IH].
  - destruct (gameStatus _) eqn:E.
    + apply settled_playing; assumption.
    + destruct (@startNewRound_state r s0 Hr) as [E' _].
      rewrite E' in E. discriminate E.
    + destruct (@startNewRound_state r s0 Hr) as [E' _].
      rewrite E' in E. discriminate E.
  - destruct (submitGuess_cases letter s) as [H | [Hp Hn]].
    + rewrite submitGuess_ignored in * by assumption. cbn [fst] in *.
      apply IH; assumption.
    + rewrite submitGuess_accepted in * by assumption.
      destruct (runEffects_word renderPasses (guessed letter s)) as (Ew & _).
      assert (Hw' : word (guessed letter s) <> []) by congruence.
      assert (Hp' : gameStatus (guessed letter s) = Playing) by exact Hp.
      unfold renderPasses in *.
      destruct (runEffects_cases (guessed letter s))
        as [[H | H] | (_ & _ & [Hh | (Hh & [Ha | Ha])])];
        try contradiction.
      * rewrite runEffects_won by assumption. exact Hh.
      * rewrite runEffects_lost in * by assumption.
        cbn [fst withStatus gameStatus attempts] in *.
        split; [exact Hh | lia].
      * rewrite runEffects_go_on by assumption. cbn [fst].
        rewrite Hp'. auto.
Qed.

(** X3: In every reachable state the phase is determined by the word, the
    guessed letters and the wrong attempts: it is Won exactly when every
    letter of the word is guessed, Lost exactly when some letter is
    hidden and the attempts are 6, and in progress exactly when some
    letter is hidden and the attempts are fewer than 6. *)
Theorem phase_is_derived (s : State) :
  reachable s ->
  (gameStatus s = Won <->
     forall c, In c (word s) -> In [c] (guessedLetters s))
  /\ (gameStatus s = Lost <->
        (exists c, In c (word s) /\ ~ In [c] (guessedLetters s))
        /\ attempts s = MAX_ATTEMPTS)
  /\ (gameStatus s = Playing <->
        (exists c, In c (word s) /\ ~ In [c] (guessedLetters s))
        /\ (attempts s < MAX_ATTEMPTS)%N).
Proof.
  intros R. pose proof (reachable_phase R) as P.
  rewrite <- hasWon_spec, <- hasWon_false.
  destruct (gameStatus s); [destruct P as [P1 P2] | | destruct P as [P1 P2]];
    repeat split; intros; try congruence; try tauto;
    try (destruct H; congruence); try (destruct H; lia).
Qed.

Lemma phase_is_derived_witness :
  let s := fst (play [lit "G"; lit "O"; lit "X"; lit "L"]
                     (fst (startNewRound double_6_30 initialState))) in
  gameStatus s = Won <->
  forall c, In c (word s) -> In [c] (guessedLetters s).
Proof.
  intros s.
  assert (Hr : Math_random_returns double_6_30 = true) by reflexivity.
  assert (R : reachable s)
    by (apply reachable_play, reach_new; assumption).
  exact (proj1 (phase_is_derived R)).
Defined.

(* ================================================================== *)
(** ** The drawing *)

Lemma at_most_six (a : N) :
  (a <= 6)%N ->
  a = 0%N \/ a = 1%N \/ a = 2%N \/ a = 3%N \/ a = 4%N \/ a = 5%N \/ a = 6%N.
Proof. lia. Qed.

(** X4: In every reachable state the drawing shows one scene element per
    wrong letter, in the order of [SCENE_ELEMENTS]; the red card is drawn
    exactly when the round is Lost and the yellow card exactly from the
    fifth wrong attempt on. *)
Theorem PenaltyDrawing_counts_wrong_letters (s : State) :
  reachable s ->
  List.length (PenaltyDrawing (attempts s)) = List.length (wrongLetters s)
  /\ PenaltyDrawing (attempts s)
     = firstn (List.length (wrongLetters s)) SCENE_ELEMENTS
  /\ (In red_card (PenaltyDrawing (attempts s)) <-> gameStatus s = Lost)
  /\ (In yellow_card (PenaltyDrawing (attempts s)) <-> (5 <= attempts s)%N).
Proof.
  intros R. destruct (reachable_counts R) as [_ EA].
  destruct (reachable_attempts R) as [Ale Alt].
  pose proof (reachable_phase R) as P.
  assert (E : PenaltyDrawing (attempts s)
              = firstn (List.length (wrongLetters s)) SCENE_ELEMENTS)
    by (unfold PenaltyDrawing, slice0; rewrite EA, Nat2N.id; reflexivity).
  split; [| split; [exact E | split]].
  - rewrite E, length_firstn. change (List.length SCENE_ELEMENTS) with 6%nat.
    unfold MAX_ATTEMPTS in Ale. lia.
  - unfold MAX_ATTEMPTS in *.
    destruct (at_most_six Ale) as [A | [A | [A | [A | [A | [A | A]]]]]];
      rewrite A in *; simpl;
      destruct (gameStatus s); simpl in P;
      intuition (congruence || lia).
  - unfold MAX_ATTEMPTS in *.
    destruct (at_most_six Ale) as [A | [A | [A | [A | [A | [A | A]]]]]];
      rewrite A; simpl; intuition (congruence || lia).
Qed.

Lemma PenaltyDrawing_counts_wrong_letters_witness :
  let s := fst (play [lit "Q"; lit "G"; lit "W"]
                     (fst (startNewRound double_6_30 initialState))) in
  List.length (PenaltyDrawing (attempts s)) = List.length (wrongLetters s).
Proof.
  intros s.
  assert (Hr : Math_random_returns double_6_30 = true) by reflexivity.
  assert (R : reachable s)
    by (apply reachable_play, reach_new; assumption).
  exact (proj1 (PenaltyDrawing_counts_wrong_letters R)).
Defined.

(* ================================================================== *)
(** ** The red-card alert *)

(** X5: From a state that is not Lost, any sequence of guesses raises at
    most one alert: none unless the round ends Lost, and then exactly
    the red-card alert whose message reveals the word. *)
Theorem alert_once_on_loss (ls : list str) :
  forall s : State,
    gameStatus s <> Lost ->
    snd (play ls s)
    = match gameStatus (fst (play ls s)) with
      | Lost => [mkAlert redCardTitle
                         (lit "Faltas demais! A palavra era: " ++ word s)]
      | _ => []
      end.
Proof.
  induction ls as [|l ls IH]; intros s HL.
  - cbn [play fst snd]. destruct (gameStatus s); congruence.
  - destruct (submitGuess_cases l s) as [H | [Hp Hn]].
    + cbn [play]. rewrite submitGuess_ignored by assumption.
      specialize (IH s HL). destruct (play ls s) as [s2 al2].
      cbn [fst snd app] in *. exact IH.
    + cbn [play]. rewrite submitGuess_accepted by assumption.
      assert (Hp' : gameStatus (guessed l s) = Playing) by exact Hp.
      unfold renderPasses.
      destruct (runEffects_cases (guessed l s))
        as [[H | H] | (Hw & _ & [Hh | (Hh & [Ha | Ha])])];
        try contradiction.
      * rewrite runEffects_idle by (left; exact H).
        assert (HL' : gameStatus (guessed l s) <> Lost) by congruence.
        specialize (IH _ HL'). destruct (play ls (guessed l s)) as [s2 al2].
        cbn [fst snd app] in *. exact IH.
      * rewrite runEffects_won by assumption.
        rewrite play_finished by (simpl; discriminate). reflexivity.
      * rewrite runEffects_lost by assumption.
        rewrite play_finished by (simpl; discriminate). reflexivity.
      * rewrite runEffects_go_on by assumption.
        assert (HL' : gameStatus (guessed l s) <> Lost) by congruence.
        specialize (IH _ HL'). destruct (play ls (guessed l s)) as [s2 al2].
        cbn [fst snd app] in *. exact IH.
Qed.

Lemma alert_once_on_loss_witness :
  snd (play (List.map lit ["Q"; "W"; "E"; "R"; "T"; "Y"; "U"]%string)
            (freshRound (lit "GOL")))
  = [mkAlert redCardTitle (lit "Faltas demais! A palavra era: GOL")].
Proof.
  refine (alert_once_on_loss
            (List.map lit ["Q"; "W"; "E"; "R"; "T"; "Y"; "U"]%string)
            (freshRound (lit "GOL")) _).
  simpl. discriminate.
Defined.

(* ================================================================== *)
(** ** What a round never undoes *)

Lemma submitGuess_grows (l : str) (s : State) :
  word (fst (submitGuess l s)) = word s
  /\ (guessedLetters (fst (submitGuess l s)) = guessedLetters s
      /\ attempts (fst (submitGuess l s)) = attempts s
      \/ guessedLetters (fst (submitGuess l s)) = guessedLetters s ++ [l]
         /\ (attempts s <= attempts (fst (submitGuess l s)) <= attempts s + 1)%N).
Proof.
  destruct (submitGuess_cases l s) as [H | [Hp Hn]].
  - rewrite submitGuess_ignored by assumption. auto.
  - rewrite submitGuess_accepted by assumption.
    destruct (runEffects_word renderPasses (guessed l s)) as (-> & -> & ->).
    split; [reflexivity |]. right. split; [reflexivity |].
    cbn [guessed attempts]. destruct (String_includes (word s) l); lia.
Qed.

(** X6: Within a round nothing is taken back: any sequence of guesses keeps
    the word, only appends letters it was given to the guessed letters,
    never lowers the wrong attempts and raises them by at most one per
    appended letter. *)
Theorem play_only_adds (ls : list str) (s : State) :
  word (fst (play ls s)) = word s
  /\ exists added,
       guessedLetters (fst (play ls s)) = guessedLetters s ++ added
       /\ incl added ls
       /\ (attempts s <= attempts (fst (play ls s))
           <= attempts s + N.of_nat (List.length added))%N.
Proof.
  revert s; induction ls as [|l ls IH]; intros s.
  - cbn [play fst]. split; [reflexivity |]. exists [].
    rewrite app_nil_r. split; [reflexivity |].
    split; [apply incl_refl | simpl; lia].
  - rewrite play_cons_fst.
    destruct (IH (fst (submitGuess l s))) as (Ew & added & Eg & Inc & Ea).
    destruct (submitGuess_grows l s) as (Ew1 & [[Eg1 Ea1] | [Eg1 Ea1]]).
    + split; [congruence |]. exists added.
      rewrite Eg, Eg1. split; [reflexivity |].
      split; [apply incl_tl, Inc | lia].
    + split; [congruence |]. exists (l :: added).
      rewrite Eg, Eg1, <- app_assoc. split; [reflexivity |].
      split.
      * intros x [<- | Hx]; [left; reflexivity | right; apply Inc, Hx].
      * cbn [List.length]. lia.
Qed.

(* ================================================================== *)
(** ** The display during a round *)

Lemma shown_guessed (l : str) (s : State) (c : char) :
  In c (word s) -> ~ occurs l (word s) ->
  shown (guessed l s) c = shown s c.
Proof.
  intros Hc Hn. unfold shown. cbn [guessed guessedLetters].
  rewrite Array_includes_app.
  replace (Array_includes [l] [c]) with false;
    [rewrite orb_false_r; reflexivity |].
  symmetry. apply Array_includes_notIn. intros [E | []]. subst l.
  apply Hn, String_includes_spec, String_includes_char, Hc.
Qed.

Lemma displayWord_ext (s t : State) :
  word s = word t ->
  (forall c, In c (word s) -> shown s c = shown t c) ->
  displayWord s = displayWord t.
Proof.
  intros Ew Hs. rewrite !displayWord_shown, <- Ew. do 2 f_equal.
  apply map_ext_in, Hs.
Qed.

(** X7: A guess that does not occur in the word reveals nothing: the display
    after it is the display before it. *)
Theorem wrong_guess_keeps_display (l : str) (s : State) :
  ~ occurs l (word s) ->
  displayWord (fst (submitGuess l s)) = displayWord s.
Proof.
  intros Hn. destruct (submitGuess_cases l s) as [H | [Hp Hg]].
  - rewrite submitGuess_ignored by assumption. reflexivity.
  - rewrite submitGuess_accepted by assumption.
    destruct (runEffects_word renderPasses (guessed l s)) as (Ew & Eg & _).
    transitivity (displayWord (guessed l s)).
    + apply displayWord_ext; [exact Ew |].
      intros c _. unfold shown. rewrite Eg. reflexivity.
    + apply displayWord_ext; [reflexivity |].
      intros c Hc. apply shown_guessed; assumption.
Qed.

Lemma wrong_guess_keeps_display_witness :
  let s := mkState (lit "GOL") [lit "G"] 0 Playing in
  displayWord (fst (submitGuess (lit "X") s)) = displayWord s.
Proof.
  intros s. apply wrong_guess_keeps_display.
  rewrite <- String_includes_spec. vm_compute. discriminate.
Defined.

Lemma join_units_In (sep x : char) (cs : list char) :
  In x (join [sep] (split_chars cs)) ->
  In x cs \/ x = sep.
Proof.
  induction cs as [|c cs IH]; [intros [] |].
  destruct cs as [|d cs]; [simpl; tauto |].
  rewrite join_units_cons by discriminate.
  intros [<- | [<- | H]]; [left; left; reflexivity | right; reflexivity |].
  destruct (IH H); [left; right; assumption | right; assumption].
Qed.

Lemma join_units_incl (sep x : char) (cs : list char) :
  In x cs -> In x (join [sep] (split_chars cs)).
Proof.
  induction cs as [|c cs IH]; [intros [] |].
  destruct cs as [|d cs]; [simpl; tauto |].
  rewrite join_units_cons by discriminate.
  intros [<- | H]; [left; reflexivity | right; right; apply IH, H].
Qed.

Lemma WORDS_letters_on_keyboard (w : str) (c : char) :
  In w WORDS -> In c w -> c = E_acute \/ In [c] ALPHABET.
Proof.
  assert (F : forallb (fun w => forallb (fun c => N.eqb c E_acute
                                        || Array_includes ALPHABET [c]) w)
                      WORDS = true) by (vm_compute; reflexivity).
  rewrite forallb_forall in F. intros Hw Hc.
  specialize (F w Hw). rewrite forallb_forall in F. specialize (F c Hc).
  apply orb_true_iff in F. destruct F as [F | F].
  - left. apply N.eqb_eq, F.
  - right. apply Array_includes_In, F.
Qed.

Lemma WORDS_no_placeholder (w : str) :
  In w WORDS -> ~ In 95%N w /\ ~ In 32%N w.
Proof.
  intros Hw. split; intros Hc;
    destruct (@WORDS_letters_on_keyboard w _ Hw Hc) as [E | E];
    try discriminate E;
    apply Array_includes_In in E; vm_compute in E; discriminate E.
Qed.

(** X8: In every reachable state the display contains an underscore exactly
    when the round is not Won: a won round shows the whole word, and a
    round in progress or Lost still hides a letter. *)
Theorem display_complete_iff_won (s : State) :
  reachable s ->
  (gameStatus s = Won <-> ~ In 95%N (displayWord s))
  /\ (gameStatus s = Won ->
      displayWord s = join (lit " ") (split_chars (word s))).
Proof.
  intros R. pose proof (reachable_phase R) as P.
  destruct (WORDS_no_placeholder (reachable_word R)) as [N95 N32].
  assert (A : hasWon s = true ->
              List.map (shown s) (word s) = word s).
  { intros Hh. rewrite <- (map_id (word s)) at 2. apply map_ext_in.
    intros c Hc. unfold shown.
    rewrite (proj2 (Array_includes_In _ _) (proj1 (hasWon_spec s) Hh c Hc)).
    reflexivity. }
  assert (B : hasWon s = false -> In 95%N (displayWord s)).
  { intros Hh. apply hasWon_false in Hh. destruct Hh as (c & Hc & Nc).
    rewrite displayWord_shown. apply join_units_incl.
    apply in_map_iff. exists c. split; [| exact Hc].
    unfold shown. apply Array_includes_notIn in Nc. rewrite Nc. reflexivity. }
  assert (C : hasWon s = true -> ~ In 95%N (displayWord s)).
  { intros Hh. rewrite displayWord_shown, (A Hh). intros H.
    apply join_units_In in H. destruct H as [H | H];
      [contradiction | discriminate H]. }
  split.
  - destruct (gameStatus s); [destruct P as [P _] | | destruct P as [P _]];
      split; intros H; try congruence; try (apply C, P);
      try (exfalso; apply H, B, P).
  - intros W. rewrite W in P. rewrite displayWord_shown, (A P). reflexivity.
Qed.

Lemma display_complete_iff_won_witness :
  let s := fst (play [lit "G"; lit "O"; lit "X"; lit "L"]
                     (fst (startNewRound double_6_30 initialState))) in
  gameStatus s = Won <-> ~ In 95%N (displayWord s).
Proof.
  intros s.
  assert (Hr : Math_random_returns double_6_30 = true) by reflexivity.
  assert (R : reachable s)
    by (apply reachable_play, reach_new; assumption).
  exact (proj1 (display_complete_iff_won R)).
Defined.

(* ================================================================== *)
(** ** How a round ends *)

Lemma play_word (ls : list str) (s : State) :
  word (fst (play ls s)) = word s
  /\ incl (guessedLetters s) (guessedLetters (fst (play ls s))).
Proof.
  revert s; induction ls as [|l ls IH]; intros s.
  - split; [reflexivity | apply incl_refl].
  - rewrite play_cons_fst.
    destruct (IH (fst (submitGuess l s))) as (Ew & Inc).
    destruct (submitGuess_grows l s) as (Ew1 & [[Eg1 _] | [Eg1 _]]);
      (split; [congruence |]); rewrite Eg1 in Inc; [exact Inc |].
    eapply incl_tran; [apply incl_appl, incl_refl | exact Inc].
Qed.

Lemma play_settled (ls : list str) (s : State) :
  settled s -> settled (fst (play ls s)).
Proof.
  revert s; induction ls as [|l ls IH]; intros s St; [exact St |].
  rewrite play_cons_fst. apply IH.
  destruct (submitGuess_cases l s) as [H | [Hp Hn]].
  - rewrite submitGuess_ignored by assumption. exact St.
  - rewrite submitGuess_accepted by assumption. apply runEffects_settled.
Qed.

(** While a round stays in progress every letter pressed is recorded. *)
Lemma play_pressed (ls : list str) (s : State) :
  gameStatus (fst (play ls s)) = Playing ->
  gameStatus s = Playing
  /\ forall l, In l ls -> In l (guessedLetters (fst (play ls s))).
Proof.
  revert s; induction ls as [|l ls IH]; intros s HP.
  - split; [exact HP | intros l []].
  - rewrite play_cons_fst in *.
    destruct (IH _ HP) as (P1 & All).
    destruct (play_word ls (fst (submitGuess l s))) as (_ & Inc).
    destruct (submitGuess_cases l s) as [[H | H] | [Hp Hn]].
    + rewrite submitGuess_ignored in P1 by (left; exact H). contradiction.
    + rewrite submitGuess_ignored in * by (right; exact H).
      cbn [fst] in *. split; [exact P1 |].
      intros l' [<- | Hl']; [apply Inc, H | apply All, Hl'].
    + split; [exact Hp |].
      intros l' [<- | Hl']; [| apply All, Hl'].
      apply Inc. rewrite submitGuess_accepted by assumption.
      destruct (runEffects_word renderPasses (guessed l s)) as (_ & -> & _).
      simpl. apply in_or_app. right. left. reflexivity.
Qed.

(** X9: Once every letter of the word has been pressed the round is over,
    whatever else was pressed in between and in whatever order: it is
    Won or Lost, never still in progress. *)
Theorem pressing_all_letters_ends_round (s : State) (ls : list str) :
  settled s ->
  word s <> [] ->
  (forall c, In c (word s) -> In [c] ls) ->
  gameStatus (fst (play ls s)) <> Playing.
Proof.
  intros St Hw Hall HP.
  destruct (play_pressed ls s HP) as (_ & All).
  destruct (play_word ls s) as (Ew & _).
  assert (Hw' : word (fst (play ls s)) <> []) by congruence.
  destruct (settled_playing (play_settled ls St) HP Hw') as [Hh _].
  apply hasWon_false in Hh. destruct Hh as (c & Hc & Nc).
  apply Nc, All, Hall. rewrite <- Ew. exact Hc.
Qed.

Lemma pressing_all_letters_ends_round_witness :
  gameStatus (fst (play (List.map lit ["X"; "L"; "Q"; "O"; "Z"; "G"]%string)
                        (freshRound (lit "GOL")))) <> Playing.
Proof.
  apply pressing_all_letters_ends_round.
  - reflexivity.
  - discriminate.
  - simpl. intros c [<- | [<- | [<- | []]]]; auto 10.
Defined.

Lemma WORDS_spelled_by_keyboard (w : str) :
  In w WORDS -> w <> lit "PEL" ++ [E_acute] ->
  forall c, In c w -> In [c] ALPHABET.
Proof.
  assert (F : forallb (fun w => str_eqb w (lit "PEL" ++ [E_acute])
                                || forallb (fun c => Array_includes ALPHABET [c]) w)
                      WORDS = true) by (vm_compute; reflexivity).
  rewrite forallb_forall in F. intros Hw Hne c Hc.
  specialize (F w Hw). apply orb_true_iff in F. destruct F as [F | F].
  - apply str_eqb_eq in F. contradiction.
  - rewrite forallb_forall in F. apply Array_includes_In, F, Hc.
Qed.

(** X10: Every word of [WORDS] other than PEL+E-acute is spelled with letters
    of the keyboard, and pressing the keys of its letters in order from
    a fresh round wins it. *)
Theorem every_other_word_is_winnable (w : str) :
  In w WORDS ->
  w <> lit "PEL" ++ [E_acute] ->
  (forall l, In l (split_chars w) -> In l ALPHABET)
  /\ gameStatus (fst (play (split_chars w) (freshRound w))) = Won.
Proof.
  intros Hw Hne. split.
  - intros l Hl. apply split_chars_In in Hl. destruct Hl as (c & -> & Hc).
    exact (WORDS_spelled_by_keyboard Hw Hne c Hc).
  - pose proof (WORDS_nonempty Hw) as Hn.
    assert (Hh : hasWon (freshRound w) = false).
    { apply hasWon_false. destruct w as [|c w]; [congruence |].
      exists c. simpl. auto. }
    assert (Ha : (attempts (freshRound w) < MAX_ATTEMPTS)%N) by reflexivity.
    destruct (play_letters_of_word (split_chars w) (freshRound w) Hn
                (or_intror (conj eq_refl (conj Hh Ha)))
                (fun l Hl => proj1 (split_chars_In w l) Hl))
      as (Ew & _ & _ & [W | (_ & Hh' & All)]); [exact W |].
    exfalso. apply hasWon_false in Hh'. destruct Hh' as (c & Hc & Nc).
    apply Nc, All, split_chars_In. exists c. split; [reflexivity |].
    rewrite Ew in Hc. exact Hc.
Qed.

Lemma every_other_word_is_winnable_witness :
  gameStatus (fst (play (split_chars (lit "NEYMAR"))
                        (freshRound (lit "NEYMAR")))) = Won.
Proof.
  refine (proj2 (@every_other_word_is_winnable (lit "NEYMAR") _ _)).
  - vm_compute. auto 40.
  - vm_compute. discriminate.
Defined.

(** X11: From a round in progress with [a] wrong attempts, pressing distinct
    new letters that do not occur in the word adds one wrong attempt
    each; the round stays in progress below 6 and is Lost, with the
    red-card alert, when the count reaches 6. *)
Theorem wrong_guesses_count_up_to_loss (ls : list str) :
  forall s : State,
    gameStatus s = Playing ->
    (exists c, In c (word s) /\ ~ In [c] (guessedLetters s)) ->
    (attempts s < MAX_ATTEMPTS)%N ->
    NoDup ls ->
    (forall l, In l ls -> ~ In l (guessedLetters s) /\ ~ occurs l (word s)) ->
    (attempts s + N.of_nat (List.length ls) <= MAX_ATTEMPTS)%N ->
    let total := (attempts s + N.of_nat (List.length ls))%N in
    play ls s
    = (mkState (word s) (guessedLetters s ++ ls) total
               (if (total =? MAX_ATTEMPTS)%N then Lost else Playing),
       if (total =? MAX_ATTEMPTS)%N
       then [mkAlert redCardTitle (redCardMessage (word s))] else []).
Proof.
  induction ls as [|l ls IH]; intros s Hp Hid Ha ND Hls Hle total; subst total.
  - cbn [play List.length N.of_nat]. rewrite N.add_0_r, app_nil_r.
    replace (attempts s =? MAX_ATTEMPTS)%N with false
      by (symmetry; apply N.eqb_neq; lia).
    destruct s; simpl in *. congruence.
  - destruct (Hls l (or_introl eq_refl)) as [Hng Hno].
    assert (Hi : String_includes (word s) l = false).
    { destruct (String_includes (word s) l) eqn:E; [| reflexivity].
      exfalso. apply Hno, String_includes_spec, E. }
    assert (Hh : hasWon s = false) by (apply hasWon_false, Hid).
    assert (Hw : word (guessed l s) <> [])
      by (destruct Hid as (c & Hc & _); cbn [guessed word];
          destruct (word s); [destruct Hc | discriminate]).
    assert (Hp' : gameStatus (guessed l s) = Playing) by exact Hp.
    pose proof (hasWon_guessed_wrong l s Hh Hi) as Hh'.
    assert (Ea : attempts (guessed l s) = (attempts s + 1)%N)
      by (cbn [guessed attempts]; rewrite Hi; reflexivity).
    inversion ND as [| ? ? Hnl ND']; subst.
    cbn [play]. rewrite submitGuess_accepted by assumption.
    unfold renderPasses. cbn [List.length] in *.
    destruct (N.eq_dec (attempts s + 1) MAX_ATTEMPTS) as [E6 | N6].
    + assert (ls = []) by (destruct ls; [reflexivity | simpl in Hle; lia]).
      subst ls. rewrite runEffects_lost by (try assumption; lia).
      cbn [play app]. cbn [List.length] in *.
      replace (attempts s + N.of_nat 1)%N with (attempts s + 1)%N by lia.
      rewrite (proj2 (N.eqb_eq _ _) E6).
      unfold withStatus, guessed. cbn [word guessedLetters attempts].
      rewrite Hi. reflexivity.
    + rewrite runEffects_go_on by (try assumption; lia).
      assert (Hid' : exists c, In c (word (guessed l s))
                               /\ ~ In [c] (guessedLetters (guessed l s)))
        by (apply hasWon_false, Hh').
      assert (Hls' : forall l', In l' ls ->
                ~ In l' (guessedLetters (guessed l s))
                /\ ~ occurs l' (word (guessed l s))).
      { intros l' Hl'. destruct (Hls l' (or_intror Hl')) as [G O].
        split; [| exact O]. cbn [guessed guessedLetters].
        rewrite in_app_iff. intros [G' | [<- | []]]; contradiction. }
      assert (Ha' : (attempts (guessed l s) < MAX_ATTEMPTS)%N) by lia.
      assert (Hle' : (attempts (guessed l s) + N.of_nat (List.length ls)
                      <= MAX_ATTEMPTS)%N) by lia.
      rewrite (IH (guessed l s) Hp' Hid' Ha' ND' Hls' Hle').
      rewrite Ea. cbn [guessed word guessedLetters].
      replace (attempts s + 1 + N.of_nat (List.length ls))%N
        with (attempts s + N.of_nat (S (List.length ls)))%N by lia.
      rewrite <- app_assoc. reflexivity.
Qed.

Lemma wrong_guesses_count_up_to_loss_witness :
  play (List.map lit ["Q"; "W"; "E"; "R"; "T"; "Y"]%string)
       (freshRound (lit "GOL"))
  = (mkState (lit "GOL")
             (List.map lit ["Q"; "W"; "E"; "R"; "T"; "Y"]%string) 6 Lost,
     [mkAlert redCardTitle (redCardMessage (lit "GOL"))]).
Proof.
  refine (@wrong_guesses_count_up_to_loss
            (List.map lit ["Q"; "W"; "E"; "R"; "T"; "Y"]%string)
            (freshRound (lit "GOL")) _ _ _ _ _ _).
  - reflexivity.
  - exists 71%N. simpl. auto.
  - reflexivity.
  - apply distinctb_NoDup. vm_compute. reflexivity.
  - intros l Hl. split; [simpl; tauto |].
    rewrite <- String_includes_spec.
    simpl in Hl.
    destruct Hl as [<- | [<- | [<- | [<- | [<- | [<- | []]]]]]];
      vm_compute; discriminate.
  - vm_compute. discriminate.
Defined.
